(** * basequery-go: the extension manager server and the mutable table example

    A shallow embedding of [server.go] (package [osquery]) and of the
    mutable-table example extension, followed by the properties of the
    registry, the dispatcher, the lifecycle and the example's backing store.

    Conventions of the embedding:
    - a Go [map[string]T] is a [gmap string T]; reading a missing key gives
      [None], which the code observes through the comma-ok form or as the
      zero value of [T];
    - a method with a pointer receiver takes the server state and returns
      the new one; what a method does to the outside (a plugin invoked, a
      goroutine spawned, a value sent on a channel) is returned as a list of
      effects, in program order;
    - a Go panic is a constructor of the result, carrying the state the
      panic leaves behind (a deferred [Unlock] runs, the writes made before
      the panic stay);
    - [sync.Mutex] sections are atomic steps of the model. *)

From Stdlib Require Import ZArith Lia.
From stdpp Require Import base option list strings gmap pretty.

(** ** Generated thrift types, as [server.go] uses them *)

Module osquery.

Record ExtensionStatus := {
  Code : Z;          (* int32 *)
  Message : string;
  UUID : Z           (* int64 *)
}.

(** [ExtensionPluginRequest] is [map[string]string] and
    [ExtensionPluginResponse] is [[]map[string]string]. *)
Record ExtensionResponse := {
  Status : option ExtensionStatus;           (* *ExtensionStatus, nil = None *)
  Response : list (gmap string string)
}.

End osquery.

Import osquery.

(** ** Errors and panics *)

(** [github.com/pkg/errors]: a message, or an error wrapped with a message. *)
Inductive error :=
  | Errorf (msg : string)
  | Wrap (cause : error) (msg : string).

Fixpoint Error (e : error) : string :=
  match e with
  | Errorf msg => msg
  | Wrap cause msg => msg +:+ ": " +:+ Error cause
  end.

Inductive PanicValue :=
  | PanicString (msg : string)        (* panic("...") *)
  | PanicNilMapWrite                  (* assignment to entry in nil map *)
  | PanicIndexOutOfRange              (* a[i] with i outside [0, len) *)
  | PanicSliceBounds                  (* a[lo:hi] with bad bounds *)
  | PanicTypeAssertion                (* x.(T) on a value that is not a T *)
  | PanicAlreadyRegistered (name : string).
      (* promauto: duplicate metrics collector registration attempted *)

(** The result of running a function body on a state of type [S]: it
    returns a value of type [R] with the final state, or it panics, leaving
    a state behind. *)
Inductive Outcome (S R : Type) :=
  | Returned (r : R) (s : S)
  | Panicked (v : PanicValue) (s : S).
Arguments Returned {S R} r s.
Arguments Panicked {S R} v s.

Definition state_of {S R} (o : Outcome S R) : S :=
  match o with Returned _ s => s | Panicked _ s => s end.

Definition panicked {S R} (o : Outcome S R) : bool :=
  match o with Returned _ _ => false | Panicked _ _ => true end.

(** ** The plugin interface *)

Module Plugin.
Section Interface.
(** [World] is whatever state the plugins keep outside the server (the
    example's package-level [mutableData], a file, ...). *)
Context {World : Type}.

Record t := {
  Name : string;
  RegistryName : string;
  Routes : list (gmap string string);
  Ping : ExtensionStatus;
  Call : World -> gmap string string -> ExtensionResponse * World;
  Shutdown : World -> World
}.
End Interface.
Arguments t World : clear implicits.
End Plugin.

(** ** The server *)

(** Handles of the external collaborators, named by what they were built from. *)
Record ExtensionManager := { clientSockPath : string; clientTimeout : Z }.
Record TServerTransport := { listenPath : string; transportTimeout : Z }.
Record TServer := { serverTransport : TServerTransport }.
Record HttpServer := { Addr : string }.

(** A prometheus vector with labels [(plugin_name, plugin_action)]. *)
Abbreviation Labels := (string * string)%type.

(** [validRegistryNames]: the allowable [RegistryName()] values. *)
Definition validRegistryNames : gmap string bool :=
  <["table" := true]> (<["logger" := true]> (<["config" := true]>
    (<["distributed" := true]> ∅))).

(** [validRegistryNames[name]]: a missing key reads as [false]. *)
Definition validRegistryName (name : string) : bool :=
  default false (validRegistryNames !! name).

Definition defaultTimeout : Z := 1000000000.
Definition defaultPingInterval : Z := 5000000000.

Section Server.
Context {World : Type}.

Record ExtensionManagerServer := {
  name : string;
  version : string;
  sockPath : string;
  serverClient : option ExtensionManager;
  registry : gmap string (gmap string (Plugin.t World));
  promServer : option HttpServer;
  pluginCounter : option (gmap Labels nat);
  pluginGauge : option (gmap Labels nat);
  pluginTime : option (gmap Labels (list Z));
  server : option TServer;
  transport : option TServerTransport;
  timeout : Z;
  pingInterval : Z;
  prometheusPort : Z;       (* uint16 *)
  started : bool
}.

Definition set_registry (s : ExtensionManagerServer) r : ExtensionManagerServer :=
  {| name := name s; version := version s; sockPath := sockPath s;
     serverClient := serverClient s; registry := r;
     promServer := promServer s; pluginCounter := pluginCounter s;
     pluginGauge := pluginGauge s; pluginTime := pluginTime s;
     server := server s; transport := transport s; timeout := timeout s;
     pingInterval := pingInterval s; prometheusPort := prometheusPort s;
     started := started s |}.

Definition set_server (s : ExtensionManagerServer) srv : ExtensionManagerServer :=
  {| name := name s; version := version s; sockPath := sockPath s;
     serverClient := serverClient s; registry := registry s;
     promServer := promServer s; pluginCounter := pluginCounter s;
     pluginGauge := pluginGauge s; pluginTime := pluginTime s;
     server := srv; transport := transport s; timeout := timeout s;
     pingInterval := pingInterval s; prometheusPort := prometheusPort s;
     started := started s |}.

Definition set_metrics (s : ExtensionManagerServer) c g t : ExtensionManagerServer :=
  {| name := name s; version := version s; sockPath := sockPath s;
     serverClient := serverClient s; registry := registry s;
     promServer := promServer s; pluginCounter := c;
     pluginGauge := g; pluginTime := t;
     server := server s; transport := transport s; timeout := timeout s;
     pingInterval := pingInterval s; prometheusPort := prometheusPort s;
     started := started s |}.

Definition set_transport (s : ExtensionManagerServer) tr : ExtensionManagerServer :=
  {| name := name s; version := version s; sockPath := sockPath s;
     serverClient := serverClient s; registry := registry s;
     promServer := promServer s; pluginCounter := pluginCounter s;
     pluginGauge := pluginGauge s; pluginTime := pluginTime s;
     server := server s; transport := tr; timeout := timeout s;
     pingInterval := pingInterval s; prometheusPort := prometheusPort s;
     started := started s |}.

Definition set_promServer (s : ExtensionManagerServer) p : ExtensionManagerServer :=
  {| name := name s; version := version s; sockPath := sockPath s;
     serverClient := serverClient s; registry := registry s;
     promServer := p; pluginCounter := pluginCounter s;
     pluginGauge := pluginGauge s; pluginTime := pluginTime s;
     server := server s; transport := transport s; timeout := timeout s;
     pingInterval := pingInterval s; prometheusPort := prometheusPort s;
     started := started s |}.

Definition set_started (s : ExtensionManagerServer) b : ExtensionManagerServer :=
  {| name := name s; version := version s; sockPath := sockPath s;
     serverClient := serverClient s; registry := registry s;
     promServer := promServer s; pluginCounter := pluginCounter s;
     pluginGauge := pluginGauge s; pluginTime := pluginTime s;
     server := server s; transport := transport s; timeout := timeout s;
     pingInterval := pingInterval s; prometheusPort := prometheusPort s;
     started := b |}.

(** *** Options *)

Inductive ServerOption :=
  | ServerVersion (version : string)
  | ServerTimeout (timeout : Z)
  | ServerPingInterval (interval : Z)
  | ServerPrometheusPort (port : Z).

Definition apply_option (s : ExtensionManagerServer) (opt : ServerOption) :=
  match opt with
  | ServerVersion v =>
      {| name := name s; version := v; sockPath := sockPath s;
         serverClient := serverClient s; registry := registry s;
         promServer := promServer s; pluginCounter := pluginCounter s;
         pluginGauge := pluginGauge s; pluginTime := pluginTime s;
         server := server s; transport := transport s; timeout := timeout s;
         pingInterval := pingInterval s; prometheusPort := prometheusPort s;
         started := started s |}
  | ServerTimeout t =>
      {| name := name s; version := version s; sockPath := sockPath s;
         serverClient := serverClient s; registry := registry s;
         promServer := promServer s; pluginCounter := pluginCounter s;
         pluginGauge := pluginGauge s; pluginTime := pluginTime s;
         server := server s; transport := transport s; timeout := t;
         pingInterval := pingInterval s; prometheusPort := prometheusPort s;
         started := started s |}
  | ServerPingInterval i =>
      {| name := name s; version := version s; sockPath := sockPath s;
         serverClient := serverClient s; registry := registry s;
         promServer := promServer s; pluginCounter := pluginCounter s;
         pluginGauge := pluginGauge s; pluginTime := pluginTime s;
         server := server s; transport := transport s; timeout := timeout s;
         pingInterval := i; prometheusPort := prometheusPort s;
         started := started s |}
  | ServerPrometheusPort p =>
      {| name := name s; version := version s; sockPath := sockPath s;
         serverClient := serverClient s; registry := registry s;
         promServer := promServer s; pluginCounter := pluginCounter s;
         pluginGauge := pluginGauge s; pluginTime := pluginTime s;
         server := server s; transport := transport s; timeout := timeout s;
         pingInterval := pingInterval s; prometheusPort := p;
         started := started s |}
  end.

(** *** NewExtensionManagerServer *)

(** The nested registry maps: one empty map per valid registry name. *)
Definition initial_registry : gmap string (gmap string (Plugin.t World)) :=
  (λ _ : bool, (∅ : gmap string (Plugin.t World))) <$> validRegistryNames.

(** [NewClient(sockPath, timeout)] lives outside this file's sources; its
    result for the given arguments is the argument [newClient]. *)
Definition NewExtensionManagerServer (name0 sockPath0 : string)
    (opts : list ServerOption)
    (newClient : string -> Z -> ExtensionManager + error)
    : ExtensionManagerServer + error :=
  let manager :=
    {| name := name0; version := ""; sockPath := sockPath0;
       serverClient := None; registry := initial_registry;
       promServer := None; pluginCounter := None; pluginGauge := None;
       pluginTime := None; server := None; transport := None;
       timeout := defaultTimeout; pingInterval := defaultPingInterval;
       prometheusPort := 0; started := false |} in
  let manager := foldl apply_option manager opts in
  match newClient sockPath0 (timeout manager) with
  | inr err => inr err
  | inl client =>
      inl {| name := name manager; version := version manager;
             sockPath := sockPath manager; serverClient := Some client;
             registry := registry manager; promServer := promServer manager;
             pluginCounter := pluginCounter manager;
             pluginGauge := pluginGauge manager;
             pluginTime := pluginTime manager; server := server manager;
             transport := transport manager; timeout := timeout manager;
             pingInterval := pingInterval manager;
             prometheusPort := prometheusPort manager;
             started := started manager |}
  end.

(** *** RegisterPlugin *)

(** The body of the [for _, plugin := range plugins] loop, on the registry. *)
Fixpoint RegisterPlugin_loop (reg : gmap string (gmap string (Plugin.t World)))
    (plugins : list (Plugin.t World))
    : Outcome (gmap string (gmap string (Plugin.t World))) unit :=
  match plugins with
  | [] => Returned tt reg
  | plugin :: rest =>
      if negb (validRegistryName (Plugin.RegistryName plugin)) then
        Panicked
          (PanicString ("invalid registry name: " +:+ Plugin.RegistryName plugin))
          reg
      else
        match reg !! Plugin.RegistryName plugin with
        | None => Panicked PanicNilMapWrite reg
        | Some subreg =>
            RegisterPlugin_loop
              (<[Plugin.RegistryName plugin :=
                   <[Plugin.Name plugin := plugin]> subreg]> reg)
              rest
        end
  end.

Definition RegisterPlugin (s : ExtensionManagerServer)
    (plugins : list (Plugin.t World)) : Outcome ExtensionManagerServer unit :=
  match RegisterPlugin_loop (registry s) plugins with
  | Returned _ reg => Returned tt (set_registry s reg)
  | Panicked v reg => Panicked v (set_registry s reg)
  end.

(** Several calls of [RegisterPlugin] one after the other; a panic ends
    the sequence. *)
Fixpoint RegisterPlugin_calls (s : ExtensionManagerServer)
    (calls : list (list (Plugin.t World))) : Outcome ExtensionManagerServer unit :=
  match calls with
  | [] => Returned tt s
  | plugins :: rest =>
      match RegisterPlugin s plugins with
      | Returned _ s' => RegisterPlugin_calls s' rest
      | Panicked v s' => Panicked v s'
      end
  end.

(** *** Call *)

(** The two map reads at the head of [Call]: [s.registry[registry]] and
    then [subreg[item]]. *)
Definition Lookup (s : ExtensionManagerServer) (registry0 item : string)
    : option (Plugin.t World) :=
  match registry s !! registry0 with
  | None => None
  | Some subreg => subreg !! item
  end.

(** [request["action"]]: a missing key reads as the empty string. *)
Definition action (request : gmap string string) : string :=
  default "" (request !! "action").

(** One invocation of [plugin.Call], as seen from outside. *)
Record Invocation := {
  inv_registry : string;
  inv_item : string;
  inv_request : gmap string string
}.

Record CallResult := {
  cr_response : ExtensionResponse;
  cr_error : option error;
  cr_server : ExtensionManagerServer;
  cr_world : World;
  cr_invoked : list Invocation
}.

Definition Inc (l : Labels) (c : gmap Labels nat) : gmap Labels nat :=
  <[l := S (default 0 (c !! l))]> c.

Definition Observe (l : Labels) (d : Z) (h : gmap Labels (list Z))
    : gmap Labels (list Z) :=
  <[l := default [] (h !! l) ++ [d]]> h.

(** [elapsed] is what the timer of [pluginTime] measures for this call. *)
Definition Call (s : ExtensionManagerServer) (w : World)
    (registry0 item : string) (request : gmap string string) (elapsed : Z)
    : CallResult :=
  match registry s !! registry0 with
  | None =>
      {| cr_response :=
           {| Status := Some {| Code := 1;
                                Message := "Unknown registry: " +:+ registry0;
                                UUID := 0 |};
              Response := [] |};
         cr_error := None; cr_server := s; cr_world := w; cr_invoked := [] |}
  | Some subreg =>
      match subreg !! item with
      | None =>
          {| cr_response :=
               {| Status := Some {| Code := 1;
                                    Message := "Unknown registry item: " +:+ item;
                                    UUID := 0 |};
                  Response := [] |};
             cr_error := None; cr_server := s; cr_world := w;
             cr_invoked := [] |}
      | Some plugin =>
          let counter := Inc (item, action request) <$> pluginCounter s in
          let '(response, w') := Plugin.Call plugin w request in
          let gauge :=
            <[(item, action request) := length (Response response)]>
              <$> pluginGauge s in
          let time := Observe (item, action request) elapsed <$> pluginTime s in
          {| cr_response := response; cr_error := None;
             cr_server := set_metrics s counter gauge time;
             cr_world := w';
             cr_invoked := [ {| inv_registry := registry0; inv_item := item;
                                inv_request := request |} ] |}
      end
  end.

(** *** Ping *)

Definition Ping (s : ExtensionManagerServer) : ExtensionStatus * option error :=
  ({| Code := 0; Message := "OK"; UUID := 0 |}, None).

(** *** Shutdown *)

(** What the lifecycle methods do to the outside. *)
Inductive Effect :=
  | GoStop (srv : TServer)             (* go func() { server.Stop() }() *)
  | GoListenAndServe (p : HttpServer)  (* go func() { s.promServer.ListenAndServe() }() *)
  | PromShutdown (p : HttpServer).     (* s.promServer.Shutdown(ctx), result dropped *)

Record ShutdownResult := {
  sd_server : ExtensionManagerServer;
  sd_error : option error;
  sd_effects : list Effect
}.

Definition Shutdown (s : ExtensionManagerServer) : ShutdownResult :=
  match server s with
  | Some server0 =>
      {| sd_server := set_server s None; sd_error := None;
         sd_effects := [GoStop server0] |}
  | None => {| sd_server := s; sd_error := None; sd_effects := [] |}
  end.

(** *** Start *)

(** [genRegistry]: for every registry name, the routes of its plugins keyed
    by [plugin.Name()]. *)
Definition genRegistry (s : ExtensionManagerServer)
    : gmap string (gmap string (list (gmap string string))) :=
  (λ subreg : gmap string (Plugin.t World),
     map_fold (λ _ plugin routes,
                 <[Plugin.Name plugin := Plugin.Routes plugin]> routes)
              ∅ subreg) <$> registry s.

(** The replies of the host and of the transport layer to [Start]. *)
Record Host := {
  host_RegisterExtension :
    string -> string -> gmap string (gmap string (list (gmap string string)))
    -> ExtensionStatus + error;
  host_OpenServer : string -> Z -> TServerTransport + error
}.

(** [promauto.NewCounterVec], [NewGaugeVec] and [NewHistogramVec] register
    the collector they create with the default registry of the process and
    panic when that fails: [registered] are the collector names taken
    there, and a name can be taken once. *)
Definition promauto_register (name0 : string) (registered : gset string)
    : PanicValue + gset string :=
  if decide (name0 ∈ registered)
  then inl (PanicAlreadyRegistered name0)
  else inr ({[name0]} ∪ registered).

(** The locked section of [Start], on the server and the default registry
    of the process: the server to run or the error to return, with the new
    state; or a panic, with the state it leaves. *)
Definition Start_locked (s : ExtensionManagerServer) (h : Host)
    (registered : gset string)
    : Outcome (ExtensionManagerServer * gset string) (TServer + error) :=
  match host_RegisterExtension h (name s) (version s) (genRegistry s) with
  | inr err => Returned (inr (Wrap err "registering extension")) (s, registered)
  | inl stat =>
      if decide (Code stat ≠ 0%Z) then
        Returned
          (inr (Errorf ("status " +:+ pretty (Code stat)
                          +:+ " registering extension: " +:+ Message stat)))
          (s, registered)
      else
        let listenPath0 := sockPath s +:+ "." +:+ pretty (UUID stat) in
        match host_OpenServer h listenPath0 (timeout s) with
        | inr err =>
            Returned
              (inr (Wrap err ("opening server socket (" +:+ listenPath0 +:+ ")")))
              (set_transport s None, registered)
        | inl tr =>
            let server0 := {| serverTransport := tr |} in
            let s1 := set_server (set_transport s (Some tr)) (Some server0) in
            if bool_decide (0 < prometheusPort s)%Z then
              let s2 :=
                set_promServer s1
                  (Some {| Addr := ":" +:+ pretty (prometheusPort s) |}) in
              match promauto_register "plugin_calls" registered with
              | inl v => Panicked v (s2, registered)
              | inr registered1 =>
                  let s3 :=
                    set_metrics s2 (Some ∅) (pluginGauge s2) (pluginTime s2) in
                  match promauto_register "plugin_results" registered1 with
                  | inl v => Panicked v (s3, registered1)
                  | inr registered2 =>
                      let s4 :=
                        set_metrics s3 (pluginCounter s3) (Some ∅)
                          (pluginTime s3) in
                      match promauto_register "plugin_duration_seconds"
                              registered2 with
                      | inl v => Panicked v (s4, registered2)
                      | inr registered3 =>
                          let s5 :=
                            set_metrics s4 (pluginCounter s4) (pluginGauge s4)
                              (Some ∅) in
                          Returned (inl server0) (set_started s5 true, registered3)
                      end
                  end
              end
            else Returned (inl server0) (set_started s1 true, registered)
        end
  end.

(** [Start] up to the blocking [server.Serve()]: [serve] is what [Serve]
    returns when the server stops. *)
Definition Start (s : ExtensionManagerServer) (h : Host)
    (registered : gset string) (serve : option error)
    : Outcome (ExtensionManagerServer * gset string)
              (option error * list Effect) :=
  match Start_locked s h registered with
  | Panicked v st => Panicked v st
  | Returned (inr err) st => Returned (Some err, []) st
  | Returned (inl _) st =>
      Returned
        (serve,
         match promServer (fst st) with
         | Some p => [GoListenAndServe p]
         | None => []
         end)
        st
  end.

(** *** Run *)

(** The watchdog goroutine. [replies] are the answers of the host to the
    successive [s.serverClient.Ping()] calls, as far as they are known; the
    loop is still running when they are used up. [errc] is unbuffered and
    [Run] receives from it once: [receiving] tells whether [Run] is still
    waiting in that receive when the watchdog comes to its send. Then the
    send goes through and the loop is left; otherwise the goroutine stays
    blocked in the send. *)
Inductive PingReply :=
  | PingError (err : error)
  | PingStatus (status : ExtensionStatus).

Inductive WatchdogStep :=
  | Sleep (d : Z)                 (* time.Sleep(s.pingInterval) *)
  | ClientPing                    (* s.serverClient.Ping() *)
  | Send (err : error).           (* errc <- err, entered *)

Inductive LoopState :=
  | Looping                       (* in the loop, waiting for a reply *)
  | Blocked                       (* in errc <- err, for ever *)
  | Broke.                        (* past the break *)

Fixpoint watchdog (interval : Z) (replies : list PingReply) (receiving : bool)
    : list WatchdogStep * LoopState :=
  match replies with
  | [] => ([], Looping)
  | reply :: rest =>
      match reply with
      | PingError err =>
          ([Sleep interval; ClientPing; Send (Wrap err "extension ping failed")],
           if receiving then Broke else Blocked)
      | PingStatus status =>
          if decide (Code status ≠ 0%Z) then
            ([Sleep interval; ClientPing;
              Send (Errorf ("ping returned status " +:+ pretty (Code status)))],
             if receiving then Broke else Blocked)
          else
            let '(steps, st) := watchdog interval rest receiving in
            (Sleep interval :: ClientPing :: steps, st)
      end
  end.

(** The values a goroutine comes to send on [errc], in order. *)
Definition sends (steps : list WatchdogStep) : list error :=
  omap (λ step, match step with Send err => Some err | _ => None end) steps.

(** The number of [Ping] calls a goroutine made. *)
Definition pings (steps : list WatchdogStep) : nat :=
  length (omap (λ step, match step with ClientPing => Some tt | _ => None end)
                steps).

(** Who sent a value on [errc]. *)
Inductive Completion :=
  | ServeLoopExit (result : option error)     (* errc <- s.Start() *)
  | WatchdogFailure (err : error).            (* errc <- ... in the watchdog *)

Definition errc_value (c : Completion) : option error :=
  match c with
  | ServeLoopExit result => result
  | WatchdogFailure err => Some err
  end.

Record RunResult := {
  run_return : option error;
  run_server : ExtensionManagerServer;
  run_effects : list Effect
}.

(** [Run] from [err := <-errc] on, in the state [s] the server is in when
    the value arrives. *)
Definition Run_received (s : ExtensionManagerServer) (err : option error)
    : RunResult :=
  let prom :=
    match promServer s with
    | Some p => [PromShutdown p]
    | None => []
    end in
  let r := Shutdown s in
  match sd_error r with
  | Some err' =>
      {| run_return := Some err'; run_server := sd_server r;
         run_effects := prom ++ sd_effects r |}
  | None =>
      {| run_return := err; run_server := sd_server r;
         run_effects := prom ++ sd_effects r |}
  end.

(** [errc] is unbuffered and [Run] receives from it once: of the sends the
    two goroutines attempt, listed in [arrivals] in the order in which they
    reach the channel, the first is delivered and the others stay blocked.
    [Run] has not returned ([None]) while nothing has arrived. *)
Definition Run (s : ExtensionManagerServer) (arrivals : list Completion)
    : option RunResult :=
  match arrivals with
  | [] => None
  | first :: _ => Some (Run_received s (errc_value first))
  end.

(** The sends the watchdog attempts, as completions; what it attempts does
    not depend on who receives. *)
Definition watchdog_arrivals (interval : Z) (replies : list PingReply)
    : list Completion :=
  WatchdogFailure <$> sends (fst (watchdog interval replies true)).

End Server.
Arguments ExtensionManagerServer World : clear implicits.
Arguments CallResult World : clear implicits.
Arguments ShutdownResult World : clear implicits.
Arguments RunResult World : clear implicits.

(** ** The mutable table example ([cmd/examples/table]) *)

(** *** Go values the example handles *)

(** A value of type [interface{}] as the table plugin decodes it from a
    JSON array. *)
Inductive iface {float64 : Type} :=
  | VFloat (f : float64)
  | VString (s : string)
  | VBool (b : bool)
  | VNil.
Arguments iface float64 : clear implicits.

(** What the example takes from the language and from [fmt]: the type
    [float64], the conversion [int(f)], the verbs [%v], [%f] and [%s] of
    [fmt.Sprintf], and the number of spare slots [append] allocates when it
    grows a slice of capacity [c] to hold [n] elements. *)
Class GoRuntime (float64 : Type) := {
  int_of_float64 : float64 -> Z;
  Sprintf_v : iface float64 -> string;
  Sprintf_f : iface float64 -> string;
  Sprintf_s : iface float64 -> string;
  spare_capacity : nat -> nat -> nat
}.

Definition max_int : Z := 2 ^ 63 - 1.
Definition min_int : Z := - 2 ^ 63.

(** The values of type [int64]; [int] has 64 bits as well. *)
Definition is_int64 (z : Z) : Prop := (min_int <= z <= max_int)%Z.

(** Addition on [int64] wraps around. *)
Definition wrap64 (z : Z) : Z := ((z - min_int) mod 2 ^ 64 + min_int)%Z.

(** *** Slices *)

(** A slice of rows: its backing array from the slice's first element on,
    and its length. The capacity is the length of [array]; the elements of
    the slice are the first [len] of them. *)
Record slice := {
  array : list (gmap string string);
  len : nat
}.

Definition cap (s : slice) : nat := length (array s).
Definition elems (s : slice) : list (gmap string string) := take (len s) (array s).

(** The runtime keeps [len <= cap <= max_int]. *)
Definition slice_wf (s : slice) : Prop :=
  len s <= cap s ∧ (Z.of_nat (cap s) <= max_int)%Z.

(** [s[:hi]] is checked against the capacity. *)
Definition slice_to (s : slice) (hi : Z) : option slice :=
  if decide (0 <= hi <= Z.of_nat (cap s))%Z
  then Some {| array := array s; len := Z.to_nat hi |}
  else None.

(** [s[lo:]] is checked against the length. *)
Definition slice_from (s : slice) (lo : Z) : option slice :=
  if decide (0 <= lo <= Z.of_nat (len s))%Z
  then Some {| array := drop (Z.to_nat lo) (array s);
               len := len s - Z.to_nat lo |}
  else None.

(** [s[i] = x] is checked against the length. *)
Definition slice_set (s : slice) (i : Z) (x : gmap string string) : option slice :=
  if decide (0 <= i < Z.of_nat (len s))%Z
  then Some {| array := <[Z.to_nat i := x]> (array s); len := len s |}
  else None.

Section MutableTable.
Context {float64 : Type} `{!GoRuntime float64}.

(** [append(s, xs...)]: in place when the capacity suffices, into a fresh
    array otherwise. *)
Definition append (s : slice) (xs : list (gmap string string)) : slice :=
  let n := len s + length xs in
  if decide (n <= cap s) then
    {| array := take (len s) (array s) ++ xs ++ drop n (array s); len := n |}
  else
    {| array := take (len s) (array s) ++ xs
                  ++ replicate (spare_capacity (cap s) n) ∅;
       len := n |}.

(** The two rows [main] puts in the backing store. *)
Definition first_row : gmap string string :=
  <["i" := "1234"]> (<["b" := "12345678900"]> (<["d" := "1.2345"]>
    (<["t" := "hello"]> ∅))).

Definition second_row : gmap string string :=
  <["i" := "-1234"]> (<["b" := "-12345678900"]> (<["d" := "-1.2345"]>
    (<["t" := "world"]> ∅))).

(** The backing store that [main] installs: a slice literal, as long as
    its array. *)
Definition initial_mutableData : slice :=
  {| array := [first_row; second_row]; len := 2 |}.

Definition MutableGenerate (mutableData : slice)
    : list (gmap string string) * option error :=
  (elems mutableData, None).

(** [fmt.Sprintf("%d", int(row[0].(float64)))]. *)
Definition row_id (row : list (iface float64)) : PanicValue + string :=
  match row !! 0 with
  | None => inl PanicIndexOutOfRange
  | Some (VFloat f) => inr (pretty (int_of_float64 f))
  | Some _ => inl PanicTypeAssertion
  end.

(** The map literal that [MutableInsert] and [MutableUpdate] build. *)
Definition row_literal (id : string) (row : list (iface float64))
    : PanicValue + gmap string string :=
  match row !! 1, row !! 2, row !! 3 with
  | Some b, Some d, Some t =>
      inr (<["i" := id]> (<["b" := Sprintf_v b]> (<["d" := Sprintf_f d]>
             (<["t" := Sprintf_s t]> ∅))))
  | _, _, _ => inl PanicIndexOutOfRange
  end.

Definition MutableInsert (mutableData : slice) (autoRowID : bool)
    (row : list (iface float64))
    : Outcome slice (list (gmap string string) * option error) :=
  match row_id row with
  | inl v => Panicked v mutableData
  | inr id =>
      match row_literal id row with
      | inl v => Panicked v mutableData
      | inr r =>
          Returned ([ <["id" := id]> (<["status" := "success"]> ∅) ], None)
                   (append mutableData [r])
      end
  end.

Definition MutableUpdate (mutableData : slice) (rowID : Z)
    (row : list (iface float64)) : Outcome slice (option error) :=
  match row_id row with
  | inl v => Panicked v mutableData
  | inr id =>
      match row_literal id row with
      | inl v => Panicked v mutableData
      | inr r =>
          match slice_set mutableData rowID r with
          | None => Panicked PanicIndexOutOfRange mutableData
          | Some mutableData' => Returned None mutableData'
          end
      end
  end.

Definition MutableDelete (mutableData : slice) (rowID : Z)
    : Outcome slice (option error) :=
  match slice_to mutableData rowID with
  | None => Panicked PanicSliceBounds mutableData
  | Some head =>
      match slice_from mutableData (wrap64 (rowID + 1)) with
      | None => Panicked PanicSliceBounds mutableData
      | Some tail => Returned None (append head (elems tail))
      end
  end.

(** A row as the table plugin hands it over for the four columns: a
    [float64] for [i], then the values of [b], [d] and [t], then possibly
    more. *)
Definition well_formed_row (row : list (iface float64)) : Prop :=
  ∃ f b d t more, row = VFloat f :: b :: d :: t :: more.

End MutableTable.

(** A runtime for running the example on whole numbers below [10^6] in
    magnitude: [float64] holds integers only, [%v] and [%s] print a string
    as it is, [%v] prints a whole number in decimal and [%f] with six zero
    decimals, and a verb that does not fit its operand prints the operand
    with the verb, as [fmt] does. [append] doubles the capacity. *)
Definition bad_verb (verb : string) (x : iface Z) : string :=
  match x with
  | VFloat f => "%!" +:+ verb +:+ "(float64=" +:+ pretty f +:+ ")"
  | VString s => "%!" +:+ verb +:+ "(string=" +:+ s +:+ ")"
  | VBool true => "%!" +:+ verb +:+ "(bool=true)"
  | VBool false => "%!" +:+ verb +:+ "(bool=false)"
  | VNil => "%!" +:+ verb +:+ "(<nil>)"
  end.

Definition whole_v (x : iface Z) : string :=
  match x with
  | VFloat f => pretty f
  | VString s => s
  | VBool true => "true"
  | VBool false => "false"
  | VNil => "<nil>"
  end.

Definition whole_f (x : iface Z) : string :=
  match x with
  | VFloat f => pretty f +:+ ".000000"
  | _ => bad_verb "f" x
  end.

Definition whole_s (x : iface Z) : string :=
  match x with
  | VString s => s
  | _ => bad_verb "s" x
  end.

#[export] Instance whole_runtime : GoRuntime Z := {|
  int_of_float64 := id;
  Sprintf_v := whole_v;
  Sprintf_f := whole_f;
  Sprintf_s := whole_s;
  spare_capacity := λ c n, c + c - n
|}.

(** ** The events example ([cmd/examples/events.ext]) *)

(** One event of the streaming goroutine of [main]; [strconv.FormatInt(index,
    10)] prints [index] in decimal. *)
Definition event_row (index : Z) : gmap string string :=
  <["text" := "1234"]> (<["integer" := pretty index]>
    (<["big_int" := "1.2345"]> (<["double" := "hello"]> ∅))).

(** [for i := 0; i < 100; i++ { events = append(events, ...); index++ }],
    with [n] rounds left; [index] is an [int64]. *)
Fixpoint events_fill (n : nat) (events : list (gmap string string)) (index : Z)
    : list (gmap string string) * Z :=
  match n with
  | 0 => (events, index)
  | S n' => events_fill n' (events ++ [event_row index]) (wrap64 (index + 1))
  end.

(** One round of the outer loop: the batch handed to [client.StreamEvents]
    and the index for the next round. *)
Definition events_batch (index : Z) : list (gmap string string) * Z :=
  events_fill 100 [] index.

(** The batches of the first [rounds] rounds of the outer loop, which
    starts with [index] zero and never ends. *)
Fixpoint stream_events (rounds : nat) (index : Z)
    : list (list (gmap string string)) :=
  match rounds with
  | 0 => []
  | S rounds' =>
      let '(events, index') := events_batch index in
      events :: stream_events rounds' index'
  end.

(** ** Example values *)

Definition StatusOK : ExtensionStatus := {| Code := 0; Message := "OK"; UUID := 0 |}.

(** A static table plugin; its world counts the calls it has served. *)
Definition example_plugin (registryName name0 text : string) : Plugin.t nat :=
  {| Plugin.Name := name0;
     Plugin.RegistryName := registryName;
     Plugin.Routes := [];
     Plugin.Ping := StatusOK;
     Plugin.Call := λ w _,
       ({| Status := Some StatusOK; Response := [ <["text" := text]> ∅ ] |}, S w);
     Plugin.Shutdown := λ w, w |}.

Definition example_client (path : string) (t : Z) : ExtensionManager + error :=
  inl {| clientSockPath := path; clientTimeout := t |}.

(** The server [main] of the table example builds, before any plugin is
    registered. *)
Definition example_server : ExtensionManagerServer nat :=
  {| name := "example_extension"; version := ""; sockPath := "/tmp/osq.em";
     serverClient := Some {| clientSockPath := "/tmp/osq.em";
                             clientTimeout := 3000000000 |};
     registry := initial_registry;
     promServer := None; pluginCounter := None; pluginGauge := None;
     pluginTime := None; server := None; transport := None;
     timeout := 3000000000; pingInterval := 3000000000;
     prometheusPort := 3000; started := false |}.

Definition example_host : Host :=
  {| host_RegisterExtension := λ _ _ _, inl {| Code := 0; Message := "OK"; UUID := 7 |};
     host_OpenServer := λ path t, inl {| listenPath := path; transportTimeout := t |} |}.

(** The example server with two tables registered. *)
Definition registered_server : ExtensionManagerServer nat :=
  state_of (RegisterPlugin example_server
              [example_plugin "table" "example_table" "hello world";
               example_plugin "table" "mutable_table" "1234"]).

(** The registered server once the locked part of [Start] has run. *)
Definition started_server : ExtensionManagerServer nat :=
  fst (state_of (Start_locked registered_server example_host ∅)).

(** ** Vocabulary of the properties *)

Section Vocabulary.
Context {World : Type}.
Implicit Types (reg : gmap string (gmap string (Plugin.t World))).
Implicit Types (p : Plugin.t World) (ps : list (Plugin.t World)).

(** A plugin whose [RegistryName()] is one of the valid names. *)
Definition valid_plugin p : Prop :=
  validRegistryName (Plugin.RegistryName p) = true.

(** The plugin registered last under [(C, N)] among [ps], if any. *)
Definition last_registered (C N : string) ps : option (Plugin.t World) :=
  last (filter (λ p, Plugin.RegistryName p = C ∧ Plugin.Name p = N) ps).

(** Every valid registry name has its nested map. *)
Definition registry_ready reg : Prop :=
  ∀ C, validRegistryName C = true → is_Some (reg !! C).

Definition lookup2 reg (C N : string) : option (Plugin.t World) :=
  match reg !! C with
  | None => None
  | Some subreg => subreg !! N
  end.

(** A ping that makes the watchdog give up. *)
Definition ping_failed (reply : PingReply) : Prop :=
  match reply with
  | PingError _ => True
  | PingStatus status => Code status ≠ 0%Z
  end.

End Vocabulary.

(** ** Vocabulary of the further properties *)

Section FurtherVocabulary.
Context {World : Type}.
Implicit Types (reg : gmap string (gmap string (Plugin.t World))).
Implicit Types (s : ExtensionManagerServer World).

(** What an option sets. *)
Definition version_of (opt : ServerOption) : option string :=
  match opt with ServerVersion v => Some v | _ => None end.

Definition timeout_of (opt : ServerOption) : option Z :=
  match opt with ServerTimeout t => Some t | _ => None end.

Definition ping_interval_of (opt : ServerOption) : option Z :=
  match opt with ServerPingInterval i => Some i | _ => None end.

Definition prometheus_port_of (opt : ServerOption) : option Z :=
  match opt with ServerPrometheusPort p => Some p | _ => None end.

(** The last of the values given, or the default. *)
Definition last_or {A} (d : A) (l : list A) : A := default d (last l).

(** Every plugin sits under its own registry name and name. *)
Definition keyed_by_name reg : Prop :=
  ∀ C N p, lookup2 reg C N = Some p →
           Plugin.RegistryName p = C ∧ Plugin.Name p = N.

(** A call as the host sends it, with the time the plugin will take. *)
Record CallRequest := {
  rq_registry : string;
  rq_item : string;
  rq_request : gmap string string;
  rq_elapsed : Z
}.

(** The calls of [reqs] served one after the other. *)
Fixpoint Calls s (w : World) (reqs : list CallRequest)
    : ExtensionManagerServer World * World :=
  match reqs with
  | [] => (s, w)
  | rq :: rest =>
      let r := Call s w (rq_registry rq) (rq_item rq) (rq_request rq)
                 (rq_elapsed rq) in
      Calls (cr_server r) (cr_world r) rest
  end.

(** The calls of [reqs] that reach a plugin and are counted under the
    labels [l]. *)
Definition counted_under s (l : Labels) (reqs : list CallRequest)
    : list CallRequest :=
  filter (λ rq, is_Some (Lookup s (rq_registry rq) (rq_item rq)) ∧
                (rq_item rq, action (rq_request rq)) = l) reqs.

(** No metrics vector has been created. *)
Definition metrics_off s : Prop :=
  pluginCounter s = None ∧ pluginGauge s = None ∧ pluginTime s = None.

End FurtherVocabulary.

(** The collector names taken once [started_server] has been started. *)
Definition started_collectors : gset string :=
  snd (state_of (Start_locked registered_server example_host ∅)).

(** A host that turns the registration down. *)
Definition refusing_host : Host :=
  {| host_RegisterExtension :=
       λ _ _ _, inl {| Code := 1; Message := "duplicate extension"; UUID := 0 |};
     host_OpenServer := λ path t, inl {| listenPath := path; transportTimeout := t |} |}.

(** Three calls from the host: two that reach "example_table", one for a
    table nobody registered. *)
Definition example_calls : list CallRequest :=
  [ {| rq_registry := "table"; rq_item := "example_table";
       rq_request := <["action" := "generate"]> ∅; rq_elapsed := 125 |};
    {| rq_registry := "table"; rq_item := "missing_table";
       rq_request := <["action" := "generate"]> ∅; rq_elapsed := 7 |};
    {| rq_registry := "table"; rq_item := "example_table";
       rq_request := <["action" := "generate"]> ∅; rq_elapsed := 250 |} ].

(** * Properties *)

(** ** The registry *)

Section RegistryProperties.
Context {World : Type}.
Implicit Types (reg : gmap string (gmap string (Plugin.t World))).
Implicit Types (p plugin : Plugin.t World) (ps plugins : list (Plugin.t World)).
Implicit Types (s : ExtensionManagerServer World).

Lemma validRegistryName_spec (C : string) :
  validRegistryName C = true ↔ C ∈ ["table"; "logger"; "config"; "distributed"].
Proof.
  unfold validRegistryName, validRegistryNames.
  rewrite !elem_of_cons, elem_of_nil.
  rewrite !lookup_insert, lookup_empty.
  repeat case_decide; subst; simpl; intuition congruence.
Qed.

Lemma initial_registry_lookup (C : string) :
  (initial_registry (World := World)) !! C =
  if validRegistryName C then Some ∅ else None.
Proof.
  unfold initial_registry, validRegistryName.
  rewrite lookup_fmap.
  destruct (validRegistryNames !! C) as [b|] eqn:E; simpl; [|done].
  destruct b; [done|].
  revert E. unfold validRegistryNames.
  rewrite !lookup_insert, lookup_empty.
  repeat case_decide; congruence.
Qed.

Lemma initial_registry_ready : registry_ready (initial_registry (World := World)).
Proof. intros C HC. rewrite initial_registry_lookup, HC. eauto. Qed.

Lemma lookup2_initial (C N : string) :
  lookup2 (initial_registry (World := World)) C N = None.
Proof.
  unfold lookup2. rewrite initial_registry_lookup.
  destruct (validRegistryName C); [apply lookup_empty | done].
Qed.

Lemma Lookup_lookup2 s C N : Lookup s C N = lookup2 (registry s) C N.
Proof. reflexivity. Qed.

Lemma last_registered_cons C N p ps :
  last_registered C N (p :: ps) =
  match last_registered C N ps with
  | Some q => Some q
  | None =>
      if decide (Plugin.RegistryName p = C ∧ Plugin.Name p = N)
      then Some p else None
  end.
Proof.
  unfold last_registered. rewrite filter_cons.
  case_decide; [|by destruct (last _)].
  destruct (filter _ ps) as [|q l]; [done|].
  rewrite last_cons. by destruct (last (q :: l)).
Qed.

Lemma last_registered_app C N ps qs :
  last_registered C N (ps ++ qs) =
  match last_registered C N qs with
  | Some q => Some q
  | None => last_registered C N ps
  end.
Proof.
  induction ps as [|p ps IH]; simpl.
  - by destruct (last_registered C N qs).
  - rewrite !last_registered_cons, IH.
    by destruct (last_registered C N qs).
Qed.

(** One round of the loop on a ready registry. *)
Lemma lookup2_insert reg p subreg C N :
  reg !! Plugin.RegistryName p = Some subreg →
  lookup2 (<[Plugin.RegistryName p := <[Plugin.Name p := p]> subreg]> reg) C N =
  if decide (Plugin.RegistryName p = C ∧ Plugin.Name p = N)
  then Some p else lookup2 reg C N.
Proof.
  intros Hsub. unfold lookup2.
  destruct (decide (Plugin.RegistryName p = C)) as [<-|HC].
  - rewrite lookup_insert_eq, Hsub.
    destruct (decide (Plugin.Name p = N)) as [<-|HN].
    + rewrite lookup_insert_eq. by rewrite decide_True.
    + rewrite lookup_insert_ne by done. rewrite decide_False; [done|tauto].
  - rewrite lookup_insert_ne by done. rewrite decide_False; [done|tauto].
Qed.

Lemma registry_ready_insert reg C subreg :
  registry_ready reg → registry_ready (<[C := subreg]> reg).
Proof.
  intros Hr C' HC'. destruct (decide (C = C')) as [<-|].
  - rewrite lookup_insert_eq. eauto.
  - rewrite lookup_insert_ne by done. auto.
Qed.

Lemma RegisterPlugin_loop_valid ps : ∀ reg,
  registry_ready reg → Forall valid_plugin ps →
  ∃ reg', RegisterPlugin_loop reg ps = Returned tt reg' ∧
          registry_ready reg' ∧
          ∀ C N, lookup2 reg' C N =
                 match last_registered C N ps with
                 | Some p => Some p
                 | None => lookup2 reg C N
                 end.
Proof.
  induction ps as [|p ps IH]; intros reg Hr Hv.
  - exists reg. by repeat split.
  - apply Forall_cons in Hv as [Hp Hv]. simpl.
    unfold valid_plugin in Hp. rewrite Hp. simpl.
    destruct (Hr _ Hp) as [subreg Hsub]. rewrite Hsub.
    destruct (IH (<[Plugin.RegistryName p := <[Plugin.Name p := p]> subreg]> reg))
      as (reg' & Hrun & Hr' & Hl); [by apply registry_ready_insert | done |].
    exists reg'. split; [done|]. split; [done|].
    intros C N. rewrite Hl, last_registered_cons.
    destruct (last_registered C N ps); [done|].
    rewrite (lookup2_insert _ _ _ _ _ Hsub). by case_decide.
Qed.

Lemma RegisterPlugin_loop_app ps qs reg :
  RegisterPlugin_loop reg (ps ++ qs) =
  match RegisterPlugin_loop reg ps with
  | Returned _ reg' => RegisterPlugin_loop reg' qs
  | Panicked v reg' => Panicked v reg'
  end.
Proof.
  revert reg. induction ps as [|p ps IH]; intros reg; simpl; [done|].
  destruct (negb _); [done|].
  destruct (reg !! _); [apply IH | done].
Qed.

Lemma registry_set_registry s reg : registry (set_registry s reg) = reg.
Proof. reflexivity. Qed.

Lemma set_registry_id s : set_registry s (registry s) = s.
Proof. by destruct s. Qed.

Lemma set_registry_twice s reg reg' :
  set_registry (set_registry s reg) reg' = set_registry s reg'.
Proof. reflexivity. Qed.

Lemma RegisterPlugin_calls_concat (calls : list (list (Plugin.t World))) : ∀ s,
  RegisterPlugin_calls s calls = RegisterPlugin s (concat calls).
Proof.
  unfold RegisterPlugin.
  induction calls as [|ps calls IH]; intros s; simpl.
  - by rewrite set_registry_id.
  - rewrite RegisterPlugin_loop_app. unfold RegisterPlugin at 1.
    destruct (RegisterPlugin_loop (registry s) ps) as [[] reg'|v reg']; [|done].
    rewrite IH. simpl.
    by destruct (RegisterPlugin_loop reg' (concat calls)).
Qed.

Lemma foldl_apply_option_registry (opts : list ServerOption) : ∀ s,
  registry (foldl apply_option s opts) = registry s.
Proof.
  induction opts as [|o opts IH]; intros s; simpl; [done|].
  rewrite IH. by destruct o.
Qed.

Lemma NewExtensionManagerServer_registry name0 sockPath0 opts newClient s :
  NewExtensionManagerServer name0 sockPath0 opts newClient = inl s →
  registry s = initial_registry.
Proof.
  unfold NewExtensionManagerServer.
  destruct (newClient _ _); [|done].
  intros [= <-]. simpl. by rewrite foldl_apply_option_registry.
Qed.

End RegistryProperties.

Section RegistryTheorems.
Context {World : Type}.
Implicit Types (p plugin : Plugin.t World) (ps plugins : list (Plugin.t World)).
Implicit Types (s : ExtensionManagerServer World).

Lemma last_registered_None C N ps :
  (∀ p, p ∈ ps → ¬ (Plugin.RegistryName p = C ∧ Plugin.Name p = N)) →
  last_registered C N ps = None.
Proof.
  induction ps as [|q ps IH]; intros Hno; [done|].
  rewrite last_registered_cons, IH.
  - rewrite decide_False; [done|]. apply Hno. left.
  - intros p Hp. apply Hno. by right.
Qed.

Lemma last_registered_latest ps p qs :
  (∀ q, q ∈ qs →
        ¬ (Plugin.RegistryName q = Plugin.RegistryName p ∧
           Plugin.Name q = Plugin.Name p)) →
  last_registered (Plugin.RegistryName p) (Plugin.Name p) (ps ++ p :: qs) = Some p.
Proof.
  intros Hno. rewrite last_registered_app, last_registered_cons.
  rewrite (last_registered_None _ _ qs Hno). by rewrite decide_True.
Qed.

(** C1. On a server fresh from [NewExtensionManagerServer], any sequence of
    [RegisterPlugin] calls whose plugins all have a valid registry name
    returns, and afterwards the lookup that dispatch performs finds, for every
    registered plugin [p] that no later registration shadows, [p] itself
    under [(p.RegistryName(), p.Name())]: the latest registration wins. Under
    a pair no plugin was registered with, the lookup finds nothing. *)
Theorem RegisterPlugin_lookup_latest name0 sockPath0 opts newClient s0
    (calls : list (list (Plugin.t World))) :
  NewExtensionManagerServer name0 sockPath0 opts newClient = inl s0 →
  Forall (Forall valid_plugin) calls →
  ∃ s, RegisterPlugin_calls s0 calls = Returned tt s ∧
       (∀ earlier p later,
          concat calls = earlier ++ p :: later →
          (∀ q, q ∈ later →
                ¬ (Plugin.RegistryName q = Plugin.RegistryName p ∧
                   Plugin.Name q = Plugin.Name p)) →
          Lookup s (Plugin.RegistryName p) (Plugin.Name p) = Some p) ∧
       (∀ C N,
          (∀ p, p ∈ concat calls →
                ¬ (Plugin.RegistryName p = C ∧ Plugin.Name p = N)) →
          Lookup s C N = None).
Proof.
  intros Hnew Hvalid.
  apply NewExtensionManagerServer_registry in Hnew.
  assert (Forall valid_plugin (concat calls)) as Hall.
  { apply Forall_concat. exact Hvalid. }
  destruct (RegisterPlugin_loop_valid (concat calls) (registry s0))
    as (reg' & Hrun & _ & Hlookup); [|done|].
  { rewrite Hnew. apply initial_registry_ready. }
  exists (set_registry s0 reg'). split.
  { rewrite RegisterPlugin_calls_concat. unfold RegisterPlugin. by rewrite Hrun. }
  split.
  - intros earlier p later Heq Hno.
    rewrite Lookup_lookup2, registry_set_registry, Hlookup, Heq.
    by rewrite last_registered_latest.
  - intros C N Hno.
    rewrite Lookup_lookup2, registry_set_registry, Hlookup.
    rewrite last_registered_None by done.
    rewrite Hnew. apply lookup2_initial.
Qed.

(** C2. A call into a registry name the server has no map for returns status
    code 1 with the message "Unknown registry: X" and a nil error, invokes
    no plugin and leaves the server and the plugins' world as they were. *)
Theorem Call_unknown_registry s (w : World) (X item : string)
    (request : gmap string string) (elapsed : Z) :
  registry s !! X = None →
  Call s w X item request elapsed =
  {| cr_response :=
       {| Status := Some {| Code := 1; Message := "Unknown registry: " +:+ X;
                            UUID := 0 |};
          Response := [] |};
     cr_error := None; cr_server := s; cr_world := w; cr_invoked := [] |}.
Proof. intros HX. unfold Call. by rewrite HX. Qed.

(** C3. A call into a known registry name for an item that is not registered
    there returns status code 1 with the message "Unknown registry item: Y"
    and a nil error, and invokes no plugin; the server and the plugins'
    world stay as they were. *)
Theorem Call_unknown_item s (w : World) (C Y : string)
    (subreg : gmap string (Plugin.t World))
    (request : gmap string string) (elapsed : Z) :
  registry s !! C = Some subreg →
  subreg !! Y = None →
  Call s w C Y request elapsed =
  {| cr_response :=
       {| Status := Some {| Code := 1; Message := "Unknown registry item: " +:+ Y;
                            UUID := 0 |};
          Response := [] |};
     cr_error := None; cr_server := s; cr_world := w; cr_invoked := [] |}.
Proof. intros HC HY. unfold Call. by rewrite HC, HY. Qed.

(** C4. When the lookup finds plugin [p] under [(C, N)], [Call] returns the
    response of [p.Call] on the request, whatever its status, with a nil
    error; [p] is invoked once, on that request, the plugins' world is the
    one [p.Call] leaves, and the registry is untouched. *)
Theorem Call_returns_plugin_response s (w : World) (C N : string) p
    (request : gmap string string) (elapsed : Z) :
  Lookup s C N = Some p →
  let r := Call s w C N request elapsed in
  cr_response r = fst (Plugin.Call p w request) ∧
  cr_error r = None ∧
  cr_world r = snd (Plugin.Call p w request) ∧
  cr_invoked r = [ {| inv_registry := C; inv_item := N; inv_request := request |} ] ∧
  registry (cr_server r) = registry s.
Proof.
  unfold Lookup, Call. intros Hp.
  destruct (registry s !! C) as [subreg|]; [|done].
  rewrite Hp. simpl. by destruct (Plugin.Call p w request).
Qed.

Lemma first_invalid plugins :
  Exists (λ p, validRegistryName (Plugin.RegistryName p) = false) plugins →
  ∃ valid bad rest,
    plugins = valid ++ bad :: rest ∧
    Forall valid_plugin valid ∧
    validRegistryName (Plugin.RegistryName bad) = false.
Proof.
  induction plugins as [|p ps IH]; intros Hex; [by apply Exists_nil in Hex|].
  destruct (validRegistryName (Plugin.RegistryName p)) eqn:Hp.
  - apply Exists_cons in Hex as [Hex|Hex]; [congruence|].
    destruct (IH Hex) as (valid & bad & rest & -> & Hv & Hb).
    exists (p :: valid), bad, rest. repeat split; [|done].
    by apply Forall_cons.
  - exists [], p, ps. by repeat split.
Qed.

(** C5, as the code has it. A [RegisterPlugin] call on a ready registry whose
    arguments contain a plugin with an invalid registry name panics with
    "invalid registry name: " and that name, for the first such plugin
    [bad]. The plugins before [bad] have been inserted by then and stay
    inserted; [bad] and the plugins after it are not. The registry is the
    one before the call when [bad] is the first argument. *)
Theorem RegisterPlugin_invalid_panics s plugins :
  registry_ready (registry s) →
  Exists (λ p, validRegistryName (Plugin.RegistryName p) = false) plugins →
  ∃ valid bad rest s',
    plugins = valid ++ bad :: rest ∧
    Forall valid_plugin valid ∧
    validRegistryName (Plugin.RegistryName bad) = false ∧
    RegisterPlugin s valid = Returned tt s' ∧
    RegisterPlugin s plugins =
      Panicked (PanicString ("invalid registry name: " +:+ Plugin.RegistryName bad)) s' ∧
    (valid = [] → s' = s).
Proof.
  intros Hready Hex.
  destruct (first_invalid plugins Hex) as (valid & bad & rest & -> & Hv & Hb).
  destruct (RegisterPlugin_loop_valid valid (registry s) Hready Hv)
    as (reg' & Hrun & _ & _).
  exists valid, bad, rest, (set_registry s reg').
  repeat split; [done..| | | ].
  - unfold RegisterPlugin. by rewrite Hrun.
  - unfold RegisterPlugin. rewrite RegisterPlugin_loop_app, Hrun. simpl.
    by rewrite Hb.
  - intros ->. simpl in Hrun. injection Hrun as <-. apply set_registry_id.
Qed.

End RegistryTheorems.

Lemma RegisterPlugin_lookup_latest_witness :
  ∃ s, RegisterPlugin_calls example_server
         [ [example_plugin "table" "example_table" "one"];
           [example_plugin "table" "mutable_table" "two";
            example_plugin "table" "example_table" "three"] ] = Returned tt s ∧
       (∀ earlier p later,
          [example_plugin "table" "example_table" "one";
           example_plugin "table" "mutable_table" "two";
           example_plugin "table" "example_table" "three"] = earlier ++ p :: later →
          (∀ q, q ∈ later →
                ¬ (Plugin.RegistryName q = Plugin.RegistryName p ∧
                   Plugin.Name q = Plugin.Name p)) →
          Lookup s (Plugin.RegistryName p) (Plugin.Name p) = Some p) ∧
       (∀ C N,
          (∀ p, p ∈ [example_plugin "table" "example_table" "one";
                     example_plugin "table" "mutable_table" "two";
                     example_plugin "table" "example_table" "three"] →
                ¬ (Plugin.RegistryName p = C ∧ Plugin.Name p = N)) →
          Lookup s C N = None).
Proof.
  apply (RegisterPlugin_lookup_latest "example_extension" "/tmp/osq.em"
           [ServerTimeout 3000000000; ServerPingInterval 3000000000;
            ServerPrometheusPort 3000]
           example_client example_server
           [ [example_plugin "table" "example_table" "one"];
             [example_plugin "table" "mutable_table" "two";
              example_plugin "table" "example_table" "three"] ]).
  - reflexivity.
  - repeat constructor.
Defined.

Lemma Call_unknown_registry_witness :
  Call example_server 0 "tables" "example_table" ∅ 125 =
  {| cr_response :=
       {| Status := Some {| Code := 1; Message := "Unknown registry: tables";
                            UUID := 0 |};
          Response := [] |};
     cr_error := None; cr_server := example_server; cr_world := 0;
     cr_invoked := [] |}.
Proof.
  apply (Call_unknown_registry example_server 0 "tables" "example_table" ∅ 125).
  reflexivity.
Defined.

Lemma Call_unknown_item_witness :
  Call example_server 0 "table" "example_table" ∅ 125 =
  {| cr_response :=
       {| Status := Some {| Code := 1;
                            Message := "Unknown registry item: example_table";
                            UUID := 0 |};
          Response := [] |};
     cr_error := None; cr_server := example_server; cr_world := 0;
     cr_invoked := [] |}.
Proof.
  apply (Call_unknown_item example_server 0 "table" "example_table" ∅ ∅ 125);
    reflexivity.
Defined.

Lemma Call_returns_plugin_response_witness :
  let r := Call registered_server 0 "table" "example_table"
             (<["action" := "generate"]> ∅) 125 in
  cr_response r =
    fst (Plugin.Call (example_plugin "table" "example_table" "hello world") 0
           (<["action" := "generate"]> ∅)) ∧
  cr_error r = None ∧
  cr_world r =
    snd (Plugin.Call (example_plugin "table" "example_table" "hello world") 0
           (<["action" := "generate"]> ∅)) ∧
  cr_invoked r = [ {| inv_registry := "table"; inv_item := "example_table";
                      inv_request := <["action" := "generate"]> ∅ |} ] ∧
  registry (cr_server r) = registry registered_server.
Proof.
  apply (Call_returns_plugin_response registered_server 0 "table" "example_table"
           (example_plugin "table" "example_table" "hello world")).
  reflexivity.
Defined.

Lemma RegisterPlugin_invalid_panics_witness :
  ∃ valid bad rest s',
    [example_plugin "table" "example_table" "hello world";
     example_plugin "tables" "mutable_table" "1234"] = valid ++ bad :: rest ∧
    Forall valid_plugin valid ∧
    validRegistryName (Plugin.RegistryName bad) = false ∧
    RegisterPlugin example_server valid = Returned tt s' ∧
    RegisterPlugin example_server
      [example_plugin "table" "example_table" "hello world";
       example_plugin "tables" "mutable_table" "1234"] =
      Panicked (PanicString ("invalid registry name: " +:+ Plugin.RegistryName bad)) s' ∧
    (valid = [] → s' = example_server).
Proof.
  apply (RegisterPlugin_invalid_panics example_server
           [example_plugin "table" "example_table" "hello world";
            example_plugin "tables" "mutable_table" "1234"]).
  - intros C HC. rewrite validRegistryName_spec in HC.
    rewrite !elem_of_cons, elem_of_nil in HC.
    destruct HC as [->|[->|[->|[->|[]]]]]; eexists; reflexivity.
  - right. left. reflexivity.
Defined.

(** C5, as stated, fails: a call with a valid plugin followed by an invalid
    one panics and leaves the valid one in the registry. *)
Lemma RegisterPlugin_invalid_mutates :
  ∃ v s',
    Exists (λ p, validRegistryName (Plugin.RegistryName p) = false)
      [example_plugin "table" "example_table" "hello world";
       example_plugin "tables" "mutable_table" "1234"] ∧
    RegisterPlugin example_server
      [example_plugin "table" "example_table" "hello world";
       example_plugin "tables" "mutable_table" "1234"] = Panicked v s' ∧
    Lookup example_server "table" "example_table" = None ∧
    Lookup s' "table" "example_table" =
      Some (example_plugin "table" "example_table" "hello world") ∧
    registry s' ≠ registry example_server.
Proof.
  eexists _, _. split; [right; left; reflexivity|].
  split; [reflexivity|].
  split; [reflexivity|].
  split; [reflexivity|].
  intros Heq.
  apply (f_equal (λ reg, lookup2 reg "table" "example_table")) in Heq.
  vm_compute in Heq. discriminate Heq.
Qed.

(** ** The lifecycle *)

Section LifecycleTheorems.
Context {World : Type}.
Implicit Types (s : ExtensionManagerServer World).

Lemma Shutdown_no_error s : sd_error (Shutdown s) = None.
Proof. unfold Shutdown. by destruct (server s). Qed.

Lemma Shutdown_stopped s :
  server s = None →
  Shutdown s = {| sd_server := s; sd_error := None; sd_effects := [] |}.
Proof. intros Hs. unfold Shutdown. by rewrite Hs. Qed.

Lemma Shutdown_clears s : server (sd_server (Shutdown s)) = None.
Proof. unfold Shutdown. by destruct (server s) eqn:Hs. Qed.

(** C6. [Shutdown] always returns nil and leaves the server handle nil; on
    a running server it hands the handle to a goroutine that stops it. From
    a state whose handle is already nil it changes nothing, spawns nothing
    and returns nil, so a second [Shutdown] is a no-op. *)
Theorem Shutdown_idempotent s :
  server (sd_server (Shutdown s)) = None ∧
  sd_error (Shutdown s) = None ∧
  (∀ running, server s = Some running →
              sd_effects (Shutdown s) = [GoStop running]) ∧
  (server s = None →
   Shutdown s = {| sd_server := s; sd_error := None; sd_effects := [] |}) ∧
  Shutdown (sd_server (Shutdown s)) =
    {| sd_server := sd_server (Shutdown s); sd_error := None; sd_effects := [] |}.
Proof.
  split; [apply Shutdown_clears|].
  split; [apply Shutdown_no_error|].
  split; [intros running Hs; unfold Shutdown; by rewrite Hs|].
  split; [apply Shutdown_stopped|].
  apply Shutdown_stopped, Shutdown_clears.
Qed.

Lemma watchdog_ok_prefix interval (oks rest : list PingReply) (receiving : bool) :
  Forall (λ reply, ¬ ping_failed reply) oks →
  watchdog interval (oks ++ rest) receiving =
  (concat ((λ _, [Sleep interval; ClientPing]) <$> oks)
     ++ fst (watchdog interval rest receiving),
   snd (watchdog interval rest receiving)).
Proof.
  induction 1 as [|reply oks Hok _ IH]; simpl.
  - by destruct (watchdog interval rest receiving).
  - destruct reply as [err|status]; simpl in Hok; [tauto|].
    rewrite decide_False by done.
    by rewrite IH.
Qed.

Lemma sends_quiet interval (oks : list PingReply) :
  sends (concat ((λ _, [Sleep interval; ClientPing]) <$> oks)) = [].
Proof. induction oks as [|? ? IH]; [done|exact IH]. Qed.


Lemma sends_app (l k : list WatchdogStep) : sends (l ++ k) = sends l ++ sends k.
Proof. apply omap_app. Qed.



(** What the watchdog does up to its send does not depend on the receiver. *)
Lemma watchdog_steps_receiving interval (replies : list PingReply)
    (receiving receiving' : bool) :
  fst (watchdog interval replies receiving) =
  fst (watchdog interval replies receiving').
Proof.
  induction replies as [|reply replies IH]; simpl; [done|].
  destruct reply as [err|status]; simpl; [done|].
  case_decide; simpl; [done|].
  destruct (watchdog interval replies receiving),
           (watchdog interval replies receiving'). simpl in *. by rewrite IH.
Qed.

(** The watchdog never comes to a second send. *)
Lemma watchdog_sends_at_most_once interval (replies : list PingReply)
    (receiving : bool) :
  length (sends (fst (watchdog interval replies receiving))) ≤ 1.
Proof.
  induction replies as [|reply replies IH]; simpl; [lia|].
  destruct reply as [err|status]; simpl; [lia|].
  case_decide; simpl; [lia|].
  by destruct (watchdog interval replies receiving).
Qed.



(** [Shutdown] never fails, so [Run] returns what it received. *)
Lemma Run_received_unfold s (err : option error) :
  Run_received s err =
  {| run_return := err;
     run_server := sd_server (Shutdown s);
     run_effects :=
       match promServer s with
       | Some p => [PromShutdown p]
       | None => []
       end ++ sd_effects (Shutdown s) |}.
Proof. unfold Run_received. by rewrite Shutdown_no_error. Qed.

(** Both sources are handled alike. *)
Lemma Run_same_for_both_sources s (result : option error) (err : error)
    (later later' : list Completion) :
  run_server <$> Run s (ServeLoopExit result :: later) =
    run_server <$> Run s (WatchdogFailure err :: later') ∧
  run_effects <$> Run s (ServeLoopExit result :: later) =
    run_effects <$> Run s (WatchdogFailure err :: later').
Proof. simpl. by rewrite !Run_received_unfold. Qed.

(** C8. Whatever arrives first on the channel, the exit of the serve loop
    or a failure of the watchdog, [Run] then does the same: it shuts the
    metrics endpoint down when there is one, dropping the result, calls
    [Shutdown], and returns the value it received. Later arrivals change
    nothing. *)
Theorem Run_handles_first_completion s (first : Completion)
    (later : list Completion) :
  Run s (first :: later) =
  Some {| run_return := errc_value first;
          run_server := sd_server (Shutdown s);
          run_effects :=
            match promServer s with
            | Some p => [PromShutdown p]
            | None => []
            end ++ sd_effects (Shutdown s) |}.
Proof. simpl. by rewrite Run_received_unfold. Qed.

End LifecycleTheorems.

Lemma Shutdown_idempotent_witness :
  server example_server = None ∧
  Shutdown example_server =
    {| sd_server := example_server; sd_error := None; sd_effects := [] |}.
Proof.
  split; [reflexivity|].
  destruct (Shutdown_idempotent example_server) as (_ & _ & _ & Hstopped & _).
  apply Hstopped. reflexivity.
Defined.



(** ** The mutable table *)

Lemma wrap64_int64 (z : Z) : is_int64 z → wrap64 z = z.
Proof.
  unfold is_int64, wrap64, min_int, max_int. intros Hz.
  rewrite Z.mod_small; lia.
Qed.

Lemma wrap64_overflow : wrap64 (max_int + 1) = min_int.
Proof. reflexivity. Qed.

Section MutableTableTheorems.
Context {float64 : Type} `{!GoRuntime float64}.
Implicit Types (st : slice) (row : list (iface float64)).

Lemma length_elems st : slice_wf st → length (elems st) = len st.
Proof. intros [Hlen _]. unfold elems. apply length_take_le, Hlen. Qed.

Lemma elems_append st (xs : list (gmap string string)) :
  slice_wf st → elems (append st xs) = elems st ++ xs.
Proof.
  intros [Hlen _]. unfold append, elems, cap in *.
  assert (length (take (len st) (array st)) = len st) as Htake
    by by apply length_take_le.
  case_decide; simpl.
  - rewrite take_app_add' by done. by rewrite take_app_length.
  - rewrite take_app_add' by done. by rewrite take_app_length.
Qed.

(** A row as the table plugin hands it over: a number, then three more
    values, then possibly more. *)
Lemma row_literal_ok id (a b d t : iface float64) (more : list (iface float64)) :
  row_literal id (a :: b :: d :: t :: more) =
  inr (<["i" := id]> (<["b" := Sprintf_v b]> (<["d" := Sprintf_f d]>
         (<["t" := Sprintf_s t]> ∅)))).
Proof. reflexivity. Qed.

Lemma MutableInsert_appends st autoRowID (f : float64) (b d t : iface float64)
    (more : list (iface float64)) :
  slice_wf st →
  ∃ st',
    MutableInsert st autoRowID (VFloat f :: b :: d :: t :: more) =
      Returned ([ <["id" := pretty (int_of_float64 f)]>
                    (<["status" := "success"]> ∅) ], None) st' ∧
    elems st' =
      elems st ++ [ <["i" := pretty (int_of_float64 f)]>
                      (<["b" := Sprintf_v b]> (<["d" := Sprintf_f d]>
                         (<["t" := Sprintf_s t]> ∅))) ].
Proof.
  intros Hwf. eexists. split; [reflexivity|]. by apply elems_append.
Qed.

Lemma MutableUpdate_replaces st (rowID : Z) (f : float64) (b d t : iface float64)
    (more : list (iface float64)) :
  (0 <= rowID < Z.of_nat (len st))%Z →
  ∃ st',
    MutableUpdate st rowID (VFloat f :: b :: d :: t :: more) = Returned None st' ∧
    elems st' =
      <[Z.to_nat rowID :=
          <["i" := pretty (int_of_float64 f)]>
            (<["b" := Sprintf_v b]> (<["d" := Sprintf_f d]>
               (<["t" := Sprintf_s t]> ∅)))]> (elems st).
Proof.
  intros Hin. unfold MutableUpdate. simpl.
  unfold slice_set. rewrite decide_True by done.
  eexists. split; [reflexivity|].
  unfold elems. simpl. apply take_insert_lt. lia.
Qed.

Lemma MutableUpdate_out_of_range st (rowID : Z) row :
  ¬ (0 <= rowID < Z.of_nat (len st))%Z →
  panicked (MutableUpdate st rowID row) = true.
Proof.
  intros Hout. unfold MutableUpdate.
  destruct (row_id row); [done|].
  destruct (row_literal _ row); [done|].
  unfold slice_set. by rewrite decide_False.
Qed.

Lemma MutableDelete_shifts st (rowID : Z) :
  slice_wf st →
  (0 <= rowID < Z.of_nat (len st))%Z →
  ∃ st',
    MutableDelete st rowID = Returned None st' ∧
    elems st' = delete (Z.to_nat rowID) (elems st).
Proof.
  intros [Hlen Hcap] Hin. unfold MutableDelete, slice_to, slice_from.
  unfold cap in *.
  rewrite decide_True by lia.
  rewrite wrap64_int64 by (unfold is_int64, min_int, max_int in *; lia).
  rewrite decide_True by lia.
  eexists. split; [reflexivity|].
  set (k := Z.to_nat rowID).
  replace (Z.to_nat (rowID + 1)) with (S k) by lia.
  assert (k < len st) as Hk by lia.
  rewrite elems_append by (split; unfold cap; simpl; lia).
  unfold elems. simpl.
  rewrite delete_take_drop, take_take, Nat.min_l by lia.
  f_equal. rewrite take_drop_commute. f_equal. f_equal. lia.
Qed.

Lemma MutableDelete_out_of_range st (rowID : Z) :
  slice_wf st → is_int64 rowID →
  ¬ (0 <= rowID < Z.of_nat (len st))%Z →
  panicked (MutableDelete st rowID) = true.
Proof.
  intros [Hlen Hcap] Hint Hout. unfold MutableDelete, slice_to, slice_from.
  case_decide as Hhead; [|done].
  destruct (decide (rowID = max_int)) as [->|Hmax].
  - rewrite wrap64_overflow. rewrite decide_False; [done|].
    unfold min_int. lia.
  - rewrite wrap64_int64 by (unfold is_int64, min_int, max_int in *; lia).
    rewrite decide_False; [done|]. lia.
Qed.

End MutableTableTheorems.

Section MutableTableStore.
Context {float64 : Type} `{!GoRuntime float64}.
Implicit Types (st : slice) (row : list (iface float64)).

Lemma MutableUpdate_bad_row st (rowID : Z) row :
  ¬ well_formed_row row → panicked (MutableUpdate st rowID row) = true.
Proof.
  intros Hbad. unfold MutableUpdate, row_id, row_literal.
  destruct row as [|a rest]; [done|].
  destruct a as [f| | |]; try done.
  destruct rest as [|b [|d [|t more]]]; try done.
  exfalso. apply Hbad. by exists f, b, d, t, more.
Qed.

(** C9. On a backing store that holds the two rows of [main]:
    [MutableInsert] with a row whose first value is 5678 returns the id and
    "success" and appends the new row, which is then at index 2;
    [MutableDelete] of index 0 leaves the former second row at index 0;
    [MutableUpdate] of index 0 puts the new row at index 0 and leaves the
    other row where it was. On any store, [MutableDelete] of an index in
    range keeps the rows below it and moves every row above it down by
    one. *)
Theorem mutable_table_scenario st (autoRowID : bool) (f : float64)
    (b d t : iface float64) (more : list (iface float64)) :
  slice_wf st →
  elems st = [first_row; second_row] →
  int_of_float64 f = 5678%Z →
  let row := VFloat f :: b :: d :: t :: more in
  let new_row : gmap string string :=
    <["i" := "5678"]> (<["b" := Sprintf_v b]> (<["d" := Sprintf_f d]>
      (<["t" := Sprintf_s t]> ∅))) in
  (∃ st', MutableInsert st autoRowID row =
            Returned ([ <["id" := "5678"]> (<["status" := "success"]> ∅) ], None) st' ∧
          elems st' = [first_row; second_row; new_row] ∧
          elems st' !! 2 = Some new_row) ∧
  (∃ st', MutableDelete st 0 = Returned None st' ∧
          elems st' = [second_row] ∧
          elems st' !! 0 = elems st !! 1) ∧
  (∃ st', MutableUpdate st 0 row = Returned None st' ∧
          elems st' = [new_row; second_row] ∧
          ∀ j, j ≠ 0 → elems st' !! j = elems st !! j) ∧
  (∀ store (rowID : Z),
     slice_wf store → (0 <= rowID < Z.of_nat (len store))%Z →
     ∃ st', MutableDelete store rowID = Returned None st' ∧
            (∀ j, j < Z.to_nat rowID → elems st' !! j = elems store !! j) ∧
            (∀ j, Z.to_nat rowID ≤ j → elems st' !! j = elems store !! S j)).
Proof.
  intros Hwf Hrows Hf row new_row.
  assert (len st = 2) as Hlen.
  { rewrite <- (length_elems st Hwf), Hrows. reflexivity. }
  assert (pretty (int_of_float64 f) = "5678") as Hid.
  { rewrite Hf. reflexivity. }
  split.
  { destruct (MutableInsert_appends st autoRowID f b d t more Hwf)
      as (st' & Hrun & Helems).
    rewrite Hid in Hrun, Helems. rewrite Hrows in Helems.
    exists st'. split; [exact Hrun|]. split; [exact Helems|].
    rewrite Helems. reflexivity. }
  split.
  { destruct (MutableDelete_shifts st 0 Hwf) as (st' & Hrun & Helems); [lia|].
    rewrite Hrows in Helems.
    exists st'. split; [exact Hrun|]. split; [exact Helems|].
    rewrite Helems, Hrows. reflexivity. }
  split.
  { destruct (MutableUpdate_replaces st 0 f b d t more) as (st' & Hrun & Helems);
      [lia|].
    rewrite Hid, Hrows in Helems.
    exists st'. split; [exact Hrun|]. split; [exact Helems|].
    intros j Hj. rewrite Helems, Hrows.
    destruct j as [|j]; [done|]. reflexivity. }
  intros store rowID Hstore Hin.
  destruct (MutableDelete_shifts store rowID Hstore Hin) as (st' & Hrun & Helems).
  exists st'. split; [exact Hrun|]. rewrite Helems. split.
  - intros j Hj. by apply list_lookup_delete_lt.
  - intros j Hj. by apply list_lookup_delete_ge.
Qed.

(** The panics of out-of-range row ids, by kind. *)
Lemma MutableDelete_slice_bounds st (rowID : Z) :
  slice_wf st → is_int64 rowID →
  ¬ (0 <= rowID < Z.of_nat (len st))%Z →
  MutableDelete st rowID = Panicked PanicSliceBounds st.
Proof.
  intros [Hlen Hcap] Hint Hout. unfold MutableDelete, slice_to, slice_from.
  case_decide as Hhead; [|done].
  destruct (decide (rowID = max_int)) as [->|Hmax].
  - rewrite wrap64_overflow. rewrite decide_False; [done|].
    unfold min_int. lia.
  - rewrite wrap64_int64 by (unfold is_int64, min_int, max_int in *; lia).
    rewrite decide_False; [done|]. lia.
Qed.

Lemma MutableUpdate_index_out_of_range st (rowID : Z) row :
  well_formed_row row →
  ¬ (0 <= rowID < Z.of_nat (len st))%Z →
  MutableUpdate st rowID row = Panicked PanicIndexOutOfRange st.
Proof.
  intros (f & b & d & t & more & ->) Hout. unfold MutableUpdate. simpl.
  unfold slice_set. by rewrite decide_False.
Qed.

(** The panics of [MutableUpdate] on the row itself, by kind; the store is
    not reached. *)
Lemma MutableUpdate_row_panics st (rowID : Z) row :
  (row = [] → MutableUpdate st rowID row = Panicked PanicIndexOutOfRange st) ∧
  (∀ v rest, row = v :: rest → (∀ f, v ≠ VFloat f) →
     MutableUpdate st rowID row = Panicked PanicTypeAssertion st) ∧
  (∀ f rest, row = VFloat f :: rest → length rest < 3 →
     MutableUpdate st rowID row = Panicked PanicIndexOutOfRange st).
Proof.
  split; [by intros ->|]. split.
  - intros v rest -> Hv. unfold MutableUpdate, row_id. simpl.
    destruct v as [f| | |]; [by destruct (Hv f)|done..].
  - intros f rest -> Hshort. unfold MutableUpdate, row_id, row_literal.
    destruct rest as [|b [|d [|t more]]]; simpl in *; [done..|lia].
Qed.

(** C10, as the code has it. [MutableUpdate] and [MutableDelete] index the
    backing store by position without a bounds check. For a row id within
    [0, len), [MutableDelete] returns nil, and [MutableUpdate] returns nil on
    a row that holds a [float64] and three more values. For a row id
    outside [0, len), [MutableDelete] panics with slice bounds out of range
    and [MutableUpdate], on such a row, with index out of range on the
    store. On any other row [MutableUpdate] panics on the row itself,
    whatever the row id: index out of range on an empty row or one shorter
    than four, a failed type assertion on a first value that is no
    [float64]. Every panic leaves the store as it was. *)
Theorem mutable_index_needs_range st (rowID : Z) row :
  slice_wf st →
  is_int64 rowID →
  ((0 <= rowID < Z.of_nat (len st))%Z →
     (∃ st', MutableDelete st rowID = Returned None st') ∧
     (well_formed_row row → ∃ st', MutableUpdate st rowID row = Returned None st')) ∧
  (¬ (0 <= rowID < Z.of_nat (len st))%Z →
     MutableDelete st rowID = Panicked PanicSliceBounds st ∧
     (well_formed_row row →
        MutableUpdate st rowID row = Panicked PanicIndexOutOfRange st)) ∧
  (row = [] → MutableUpdate st rowID row = Panicked PanicIndexOutOfRange st) ∧
  (∀ v rest, row = v :: rest → (∀ f, v ≠ VFloat f) →
     MutableUpdate st rowID row = Panicked PanicTypeAssertion st) ∧
  (∀ f rest, row = VFloat f :: rest → length rest < 3 →
     MutableUpdate st rowID row = Panicked PanicIndexOutOfRange st).
Proof.
  intros Hwf Hint. split; [|split].
  - intros Hin. split.
    + destruct (MutableDelete_shifts st rowID Hwf Hin) as (st' & Hrun & _).
      by exists st'.
    + intros (f & b & d & t & more & ->).
      destruct (MutableUpdate_replaces st rowID f b d t more Hin)
        as (st' & Hrun & _).
      by exists st'.
  - intros Hout. split.
    + by apply MutableDelete_slice_bounds.
    + intros Hrow. by apply MutableUpdate_index_out_of_range.
  - apply MutableUpdate_row_panics.
Qed.

End MutableTableStore.

Lemma initial_mutableData_wf : slice_wf initial_mutableData.
Proof. split; [reflexivity|]. unfold cap, max_int. simpl. lia. Qed.

Lemma mutable_table_scenario_witness :
  let row := [VFloat 5678%Z; VString "56789"; VFloat 5%Z; VString "extra"] in
  let new_row : gmap string string :=
    <["i" := "5678"]> (<["b" := "56789"]> (<["d" := "5.000000"]>
      (<["t" := "extra"]> ∅))) in
  (∃ st', MutableInsert initial_mutableData false row =
            Returned ([ <["id" := "5678"]> (<["status" := "success"]> ∅) ], None) st' ∧
          elems st' = [first_row; second_row; new_row] ∧
          elems st' !! 2 = Some new_row) ∧
  (∃ st', MutableDelete initial_mutableData 0 = Returned None st' ∧
          elems st' = [second_row] ∧
          elems st' !! 0 = elems initial_mutableData !! 1) ∧
  (∃ st', MutableUpdate initial_mutableData 0 row = Returned None st' ∧
          elems st' = [new_row; second_row] ∧
          ∀ j, j ≠ 0 → elems st' !! j = elems initial_mutableData !! j) ∧
  (∀ store (rowID : Z),
     slice_wf store → (0 <= rowID < Z.of_nat (len store))%Z →
     ∃ st', MutableDelete store rowID = Returned None st' ∧
            (∀ j, j < Z.to_nat rowID → elems st' !! j = elems store !! j) ∧
            (∀ j, Z.to_nat rowID ≤ j → elems st' !! j = elems store !! S j)).
Proof.
  assert (slice_wf initial_mutableData) as Hwf.
  { split; [reflexivity|]. unfold cap, max_int. simpl. lia. }
  exact (mutable_table_scenario initial_mutableData false 5678%Z
           (VString "56789") (VFloat 5%Z) (VString "extra") []
           Hwf eq_refl eq_refl).
Defined.

Lemma mutable_index_needs_range_witness :
  ((0 <= 1 < Z.of_nat (len initial_mutableData))%Z ∧
   well_formed_row [VFloat 5678%Z; VString "56789"; VFloat 5%Z; VString "extra"] ∧
   (∃ st', MutableDelete initial_mutableData 1 = Returned None st') ∧
   (∃ st', MutableUpdate initial_mutableData 1
             [VFloat 5678%Z; VString "56789"; VFloat 5%Z; VString "extra"] =
           Returned None st')) ∧
  (¬ (0 <= 2 < Z.of_nat (len initial_mutableData))%Z ∧
   MutableDelete initial_mutableData 2 =
     Panicked PanicSliceBounds initial_mutableData ∧
   MutableUpdate initial_mutableData 2
     [VFloat 5678%Z; VString "56789"; VFloat 5%Z; VString "extra"] =
     Panicked PanicIndexOutOfRange initial_mutableData).
Proof.
  assert (slice_wf initial_mutableData) as Hwf.
  { split; [reflexivity|]. unfold cap, max_int. simpl. lia. }
  assert (well_formed_row
            [VFloat 5678%Z; VString "56789"; VFloat 5%Z; VString "extra"]) as Hrow
    by (by exists 5678%Z, (VString "56789"), (VFloat 5%Z), (VString "extra"), []).
  split.
  - assert (0 <= 1 < Z.of_nat (len initial_mutableData))%Z as Hin
      by (simpl; lia).
    split; [exact Hin|]. split; [exact Hrow|].
    destruct (mutable_index_needs_range initial_mutableData 1
                [VFloat 5678%Z; VString "56789"; VFloat 5%Z; VString "extra"])
      as [Hrange _]; [exact Hwf | unfold is_int64, min_int, max_int; lia |].
    destruct (Hrange Hin) as [Hdelete Hupdate].
    split; [exact Hdelete | exact (Hupdate Hrow)].
  - assert (¬ (0 <= 2 < Z.of_nat (len initial_mutableData))%Z) as Hout
      by (simpl; lia).
    split; [exact Hout|].
    destruct (mutable_index_needs_range initial_mutableData 2
                [VFloat 5678%Z; VString "56789"; VFloat 5%Z; VString "extra"])
      as (_ & Hrange & _); [exact Hwf | unfold is_int64, min_int, max_int; lia |].
    destruct (Hrange Hout) as [Hdelete Hupdate].
    split; [exact Hdelete | exact (Hupdate Hrow)].
Defined.

(** C10, as stated, fails for [MutableUpdate]: with a row id in range and a
    row whose first value is nil (a NULL for column [i]), it panics on the
    type assertion before it reaches the store. *)
Lemma MutableUpdate_in_range_panics :
  slice_wf initial_mutableData ∧
  is_int64 0 ∧
  (0 <= 0 < Z.of_nat (len initial_mutableData))%Z ∧
  MutableUpdate initial_mutableData 0
    [VNil; VString "56789"; VFloat 5%Z; VString "extra"] =
  Panicked PanicTypeAssertion initial_mutableData.
Proof.
  split; [apply initial_mutableData_wf|].
  split; [unfold is_int64, min_int, max_int; lia|].
  split; [simpl; lia|].
  reflexivity.
Qed.

(** ** Runs on concrete values *)

(** Registering "example_table" a second time replaces the first plugin. *)
Example reregistration_overwrites :
  Lookup (state_of (RegisterPlugin_calls example_server
            [ [example_plugin "table" "example_table" "one"];
              [example_plugin "table" "example_table" "two"] ]))
         "table" "example_table" =
  Some (example_plugin "table" "example_table" "two").
Proof. reflexivity. Qed.

(** The same name in another registry is another entry. *)
Example registries_are_separate :
  Lookup (state_of (RegisterPlugin example_server
            [example_plugin "table" "example" "one"])) "config" "example" = None.
Proof. reflexivity. Qed.

(** A dispatched call with metrics on: one call counted, one row gauged,
    one duration observed. *)
Example dispatch_with_metrics :
  let r := Call (set_metrics registered_server (Some ∅) (Some ∅) (Some ∅)) 0
             "table" "example_table" (<["action" := "generate"]> ∅) 125 in
  Response (cr_response r) = [ <["text" := "hello world"]> ∅ ] ∧
  cr_world r = 1 ∧
  pluginCounter (cr_server r) = Some (<[("example_table", "generate") := 1]> ∅) ∧
  pluginGauge (cr_server r) = Some (<[("example_table", "generate") := 1]> ∅) ∧
  pluginTime (cr_server r) = Some (<[("example_table", "generate") := [125%Z]]> ∅).
Proof. repeat split; reflexivity. Qed.

(** [Start] on the example host opens the socket named after the UUID and
    sets the metrics endpoint up. *)
Example started_server_handles :
  server started_server =
    Some {| serverTransport := {| listenPath := "/tmp/osq.em.7";
                                  transportTimeout := 3000000000 |} |} ∧
  promServer started_server = Some {| Addr := ":3000" |} ∧
  started started_server = true.
Proof. repeat split; reflexivity. Qed.

(** Two good pings, then a status of 1 and an error: one send, three pings. *)
Example watchdog_trace :
  watchdog 3
    [PingStatus StatusOK; PingStatus StatusOK;
     PingStatus {| Code := 1; Message := "down"; UUID := 0 |};
     PingError (Errorf "broken pipe")] true =
  ([Sleep 3; ClientPing; Sleep 3; ClientPing; Sleep 3; ClientPing;
    Send (Errorf "ping returned status 1")], Broke).
Proof. reflexivity. Qed.

Example watchdog_error_message :
  Error (Wrap (Errorf "broken pipe") "extension ping failed") =
  "extension ping failed: broken pipe".
Proof. reflexivity. Qed.

(** While the host keeps answering well the watchdog keeps looping. *)
Example watchdog_keeps_looping :
  watchdog 3 [PingStatus StatusOK; PingStatus StatusOK] false =
  ([Sleep 3; ClientPing; Sleep 3; ClientPing], Looping).
Proof. reflexivity. Qed.

(** [Run] on the started server, the watchdog failing first. *)
Example Run_after_watchdog_failure :
  Run started_server
    [WatchdogFailure (Errorf "ping returned status 1"); ServeLoopExit None] =
  Some {| run_return := Some (Errorf "ping returned status 1");
          run_server := set_server started_server None;
          run_effects :=
            [PromShutdown {| Addr := ":3000" |};
             GoStop {| serverTransport :=
                         {| listenPath := "/tmp/osq.em.7";
                            transportTimeout := 3000000000 |} |}] |}.
Proof. reflexivity. Qed.

(** Insert, then delete row 0, then update row 0, from the store of [main]. *)
Example mutable_table_sequence :
  let row := [VFloat 5678%Z; VString "56789"; VFloat 5%Z; VString "extra"] in
  let row' := [VFloat (-1)%Z; VString "0"; VFloat 0%Z; VString "new"] in
  let st1 := state_of (MutableInsert initial_mutableData false row) in
  let st2 := state_of (MutableDelete st1 0) in
  let st3 := state_of (MutableUpdate st2 0 row') in
  elems st1 =
    [first_row; second_row;
     <["i" := "5678"]> (<["b" := "56789"]> (<["d" := "5.000000"]>
       (<["t" := "extra"]> ∅)))] ∧
  elems st2 =
    [second_row;
     <["i" := "5678"]> (<["b" := "56789"]> (<["d" := "5.000000"]>
       (<["t" := "extra"]> ∅)))] ∧
  elems st3 =
    [<["i" := "-1"]> (<["b" := "0"]> (<["d" := "0.000000"]>
       (<["t" := "new"]> ∅)));
     <["i" := "5678"]> (<["b" := "56789"]> (<["d" := "5.000000"]>
       (<["t" := "extra"]> ∅)))] ∧
  cap st1 = 4 ∧ cap st2 = 4.
Proof. repeat split; reflexivity. Qed.

(** Row ids just outside the store: -1, the length, and, after a delete has
    left spare capacity, an id between length and capacity. *)
Example mutable_table_out_of_range :
  let st := state_of (MutableDelete initial_mutableData 0) in
  MutableDelete initial_mutableData (-1) =
    Panicked PanicSliceBounds initial_mutableData ∧
  MutableDelete initial_mutableData 2 =
    Panicked PanicSliceBounds initial_mutableData ∧
  MutableDelete initial_mutableData max_int =
    Panicked PanicSliceBounds initial_mutableData ∧
  (len st = 1 ∧ cap st = 2 ∧ MutableDelete st 1 = Panicked PanicSliceBounds st) ∧
  MutableUpdate initial_mutableData 2
    [VFloat 1%Z; VString "2"; VFloat 3%Z; VString "4"] =
    Panicked PanicIndexOutOfRange initial_mutableData ∧
  MutableUpdate initial_mutableData 0 [] =
    Panicked PanicIndexOutOfRange initial_mutableData.
Proof. repeat split; reflexivity. Qed.

(** * Further properties *)

(** ** Construction and options *)

Lemma last_or_cons {A} (d x : A) (l : list A) : last_or d (x :: l) = last_or x l.
Proof. unfold last_or. rewrite last_cons. by destruct (last l). Qed.

Section ConstructionProperties.
Context {World : Type}.
Implicit Types (s : ExtensionManagerServer World).
Implicit Types (p plugin : Plugin.t World) (ps plugins : list (Plugin.t World)).

(** Each option sets its own field, the last one of a kind wins, and
    nothing else moves. *)
Lemma foldl_apply_option_fields (opts : list ServerOption) : ∀ s,
  foldl apply_option s opts =
  {| name := name s;
     version := last_or (version s) (omap version_of opts);
     sockPath := sockPath s; serverClient := serverClient s;
     registry := registry s; promServer := promServer s;
     pluginCounter := pluginCounter s; pluginGauge := pluginGauge s;
     pluginTime := pluginTime s; server := server s;
     transport := transport s;
     timeout := last_or (timeout s) (omap timeout_of opts);
     pingInterval := last_or (pingInterval s) (omap ping_interval_of opts);
     prometheusPort := last_or (prometheusPort s) (omap prometheus_port_of opts);
     started := started s |}.
Proof.
  induction opts as [|o opts IH]; intros s.
  - by destruct s.
  - simpl. rewrite IH. destruct o; simpl; by rewrite last_or_cons.
Qed.

(** X1. [NewExtensionManagerServer] asks [NewClient] for a client on the
    socket path with the timeout of the last [ServerTimeout] option (one
    second without one) and returns its error as it is. Otherwise the server
    carries that client, the name and the path, for version, timeout, ping
    interval and metrics port the value of the last option of that kind or
    the defaults "", 1 s, 5 s and 0, an empty map for each of the four
    registry names, no handles, no metrics, and [started] false. *)
Theorem NewExtensionManagerServer_result (name0 sockPath0 : string)
    (opts : list ServerOption)
    (newClient : string → Z → ExtensionManager + error) :
  NewExtensionManagerServer (World := World) name0 sockPath0 opts newClient =
  match newClient sockPath0 (last_or defaultTimeout (omap timeout_of opts)) with
  | inr err => inr err
  | inl client =>
      inl {| name := name0;
             version := last_or "" (omap version_of opts);
             sockPath := sockPath0;
             serverClient := Some client;
             registry := initial_registry;
             promServer := None; pluginCounter := None; pluginGauge := None;
             pluginTime := None; server := None; transport := None;
             timeout := last_or defaultTimeout (omap timeout_of opts);
             pingInterval :=
               last_or defaultPingInterval (omap ping_interval_of opts);
             prometheusPort := last_or 0%Z (omap prometheus_port_of opts);
             started := false |}
  end.
Proof.
  unfold NewExtensionManagerServer.
  rewrite foldl_apply_option_fields. simpl.
  by destruct (newClient _ _).
Qed.

(** ** More on the registry *)

Lemma keyed_by_name_initial : keyed_by_name (initial_registry (World := World)).
Proof. intros C N p. by rewrite lookup2_initial. Qed.

Lemma lookup2_is_Some reg C N p :
  lookup2 (World := World) reg C N = Some p → is_Some (reg !! C).
Proof. unfold lookup2. destruct (reg !! C); [eauto|done]. Qed.

(** The loop, panicking or not, only ever adds the plugins it is given,
    each under its own names, and only under registry names that are valid
    and already there. *)
Lemma RegisterPlugin_loop_entries ps : ∀ reg C N p,
  lookup2 (state_of (RegisterPlugin_loop reg ps)) C N = Some p →
  lookup2 reg C N = Some p ∨
  (p ∈ ps ∧ Plugin.RegistryName p = C ∧ Plugin.Name p = N ∧
   validRegistryName C = true).
Proof.
  induction ps as [|q ps IH]; intros reg C N p; simpl; [by left|].
  destruct (validRegistryName (Plugin.RegistryName q)) eqn:Hq; simpl; [|by left].
  destruct (reg !! Plugin.RegistryName q) as [subreg|] eqn:Hsub; simpl; [|by left].
  intros Hp. apply IH in Hp as [Hp|(Hin & HC & HN & Hv)].
  - rewrite (lookup2_insert _ _ _ _ _ Hsub) in Hp.
    case_decide as Hkey; [|by left].
    injection Hp as <-. destruct Hkey as [<- <-].
    right. repeat split; [left|done].
  - right. repeat split; [by right|done..].
Qed.

Lemma RegisterPlugin_loop_untouched ps : ∀ reg C N,
  (∀ p, p ∈ ps → ¬ (Plugin.RegistryName p = C ∧ Plugin.Name p = N)) →
  lookup2 (state_of (RegisterPlugin_loop reg ps)) C N = lookup2 reg C N.
Proof.
  induction ps as [|q ps IH]; intros reg C N Hno; simpl; [done|].
  destruct (negb _); [done|].
  destruct (reg !! Plugin.RegistryName q) as [subreg|] eqn:Hsub; [|done].
  rewrite IH by (intros p Hp; apply Hno; by right).
  rewrite (lookup2_insert _ _ _ _ _ Hsub).
  rewrite decide_False; [done|]. apply Hno. left.
Qed.

Lemma RegisterPlugin_loop_dom ps : ∀ reg,
  dom (state_of (RegisterPlugin_loop reg ps)) = dom reg.
Proof.
  induction ps as [|q ps IH]; intros reg; simpl; [done|].
  destruct (negb _); [done|].
  destruct (reg !! Plugin.RegistryName q) as [subreg|] eqn:Hsub; [|done].
  rewrite IH. apply dom_insert_lookup_L. eauto.
Qed.

Lemma RegisterPlugin_loop_returns ps : ∀ reg,
  registry_ready reg →
  panicked (RegisterPlugin_loop reg ps) = false ↔ Forall valid_plugin ps.
Proof.
  induction ps as [|q ps IH]; intros reg Hready; simpl.
  - split; [constructor|done].
  - rewrite Forall_cons. unfold valid_plugin at 1.
    destruct (validRegistryName (Plugin.RegistryName q)) eqn:Hq; simpl.
    + destruct (Hready _ Hq) as [subreg Hsub]. rewrite Hsub.
      rewrite IH by by apply registry_ready_insert. tauto.
    + split; [done|]. intros [? _]. done.
Qed.

Lemma state_of_RegisterPlugin s plugins :
  state_of (RegisterPlugin s plugins) =
  set_registry s (state_of (RegisterPlugin_loop (registry s) plugins)).
Proof.
  unfold RegisterPlugin. by destruct (RegisterPlugin_loop (registry s) plugins).
Qed.

Lemma panicked_RegisterPlugin s plugins :
  panicked (RegisterPlugin s plugins) =
  panicked (RegisterPlugin_loop (registry s) plugins).
Proof.
  unfold RegisterPlugin. by destruct (RegisterPlugin_loop (registry s) plugins).
Qed.

Lemma registry_holds_registered_plugins_aux s0
    (calls : list (list (Plugin.t World))) (C N : string) p :
  registry s0 = initial_registry →
  Lookup (state_of (RegisterPlugin_calls s0 calls)) C N = Some p →
  p ∈ concat calls ∧ Plugin.RegistryName p = C ∧ Plugin.Name p = N.
Proof.
  intros Hnew Hp.
  rewrite RegisterPlugin_calls_concat, state_of_RegisterPlugin in Hp.
  rewrite Lookup_lookup2, registry_set_registry, Hnew in Hp.
  apply RegisterPlugin_loop_entries in Hp as [Hp|(Hin & HC & HN & Hv)].
  - by rewrite lookup2_initial in Hp.
  - done.
Qed.

(** X2. Whatever is registered on a server fresh from
    [NewExtensionManagerServer], and whether or not a call panics on the
    way: every plugin the lookup finds is one of the plugins that were
    passed in, sits under its own [RegistryName()] and [Name()], and that
    registry name is one of the four valid ones. *)
Theorem registry_holds_registered_plugins name0 sockPath0 opts newClient s0
    (calls : list (list (Plugin.t World))) (C N : string) p :
  NewExtensionManagerServer name0 sockPath0 opts newClient = inl s0 →
  Lookup (state_of (RegisterPlugin_calls s0 calls)) C N = Some p →
  p ∈ concat calls ∧
  Plugin.RegistryName p = C ∧ Plugin.Name p = N ∧
  C ∈ ["table"; "logger"; "config"; "distributed"].
Proof.
  intros Hnew Hp. apply NewExtensionManagerServer_registry in Hnew.
  rewrite RegisterPlugin_calls_concat, state_of_RegisterPlugin in Hp.
  rewrite Lookup_lookup2, registry_set_registry, Hnew in Hp.
  apply RegisterPlugin_loop_entries in Hp as [Hp|(Hin & HC & HN & Hv)].
  - by rewrite lookup2_initial in Hp.
  - by rewrite <- validRegistryName_spec.
Qed.

(** X3. [RegisterPlugin], returning or panicking, changes no field of the
    server but the registry, adds no registry name and removes none, and
    leaves every entry alone whose registry name and name none of its
    arguments has. *)
Theorem RegisterPlugin_frame s plugins :
  set_registry (state_of (RegisterPlugin s plugins)) (registry s) = s ∧
  dom (registry (state_of (RegisterPlugin s plugins))) = dom (registry s) ∧
  ∀ C N,
    (∀ p, p ∈ plugins → ¬ (Plugin.RegistryName p = C ∧ Plugin.Name p = N)) →
    Lookup (state_of (RegisterPlugin s plugins)) C N = Lookup s C N.
Proof.
  rewrite state_of_RegisterPlugin. split; [|split].
  - rewrite set_registry_twice. apply set_registry_id.
  - rewrite registry_set_registry. apply RegisterPlugin_loop_dom.
  - intros C N Hno. rewrite !Lookup_lookup2, registry_set_registry.
    by apply RegisterPlugin_loop_untouched.
Qed.

(** X4. On a registry that has its nested maps, [RegisterPlugin] returns
    exactly when every argument has a valid registry name, and panics
    otherwise. *)
Theorem RegisterPlugin_returns_iff_valid s plugins :
  registry_ready (registry s) →
  panicked (RegisterPlugin s plugins) = false ↔ Forall valid_plugin plugins.
Proof.
  intros Hready. rewrite panicked_RegisterPlugin.
  by apply RegisterPlugin_loop_returns.
Qed.

End ConstructionProperties.

Section RouteProperties.
Context {World : Type}.
Implicit Types (s : ExtensionManagerServer World).

Lemma routes_fold (subreg : gmap string (Plugin.t World)) :
  (∀ N p, subreg !! N = Some p → Plugin.Name p = N) →
  map_fold (λ _ plugin routes,
              <[Plugin.Name plugin := Plugin.Routes plugin]> routes)
           ∅ subreg =
  Plugin.Routes <$> subreg.
Proof.
  apply (map_fold_weak_ind
           (λ routes (m : gmap string (Plugin.t World)),
              (∀ N p, m !! N = Some p → Plugin.Name p = N) →
              routes = Plugin.Routes <$> m)).
  - intros _. by rewrite fmap_empty.
  - intros N p m routes Hfresh IH Hkeys.
    rewrite (Hkeys N p) by apply lookup_insert_eq.
    rewrite fmap_insert. f_equal. apply IH.
    intros N' p' Hp'. apply Hkeys.
    rewrite lookup_insert_ne; [done|]. intros <-. congruence.
Qed.

(** X5. For a server fresh from [NewExtensionManagerServer] with any
    registrations made on it, the registry [Start] sends to the host has a
    route table for each of the four registry names, and the table of a
    registry name holds, for exactly the names registered there, the
    [Routes()] of the plugin that the lookup finds. *)
Theorem genRegistry_routes name0 sockPath0 opts newClient s0
    (calls : list (list (Plugin.t World))) :
  NewExtensionManagerServer name0 sockPath0 opts newClient = inl s0 →
  let s := state_of (RegisterPlugin_calls s0 calls) in
  dom (genRegistry s) = dom validRegistryNames ∧
  ∀ C N, (genRegistry s !! C) ≫= (λ routes, routes !! N) =
         Plugin.Routes <$> Lookup s C N.
Proof.
  intros Hnew s.
  assert (genRegistry s =
          (λ subreg : gmap string (Plugin.t World), Plugin.Routes <$> subreg)
            <$> registry s) as Hgen.
  { unfold genRegistry. apply map_fmap_ext. intros C subreg HC.
    apply routes_fold. intros N p Hp.
    destruct (registry_holds_registered_plugins_aux s0 calls C N p) as (_ & _ & HN).
    - by apply NewExtensionManagerServer_registry in Hnew.
    - fold s. rewrite Lookup_lookup2. unfold lookup2. by rewrite HC.
    - done. }
  split.
  - rewrite Hgen, dom_fmap_L. subst s.
    rewrite RegisterPlugin_calls_concat, state_of_RegisterPlugin.
    rewrite registry_set_registry, RegisterPlugin_loop_dom.
    apply NewExtensionManagerServer_registry in Hnew. rewrite Hnew.
    unfold initial_registry. by rewrite dom_fmap_L.
  - intros C N. rewrite Hgen, lookup_fmap, Lookup_lookup2. unfold lookup2.
    destruct (registry s !! C) as [subreg|]; simpl; [|done].
    by rewrite lookup_fmap.
Qed.

End RouteProperties.

(** ** More on dispatch *)

Section DispatchProperties.
Context {World : Type}.
Implicit Types (s : ExtensionManagerServer World) (w : World).
Implicit Types (reqs : list CallRequest) (l : Labels).

(** What a call leaves of the server. *)
Lemma Call_server s w (C N : string) (request : gmap string string) (elapsed : Z) :
  cr_server (Call s w C N request elapsed) =
  match Lookup s C N with
  | Some _ =>
      set_metrics s
        (Inc (N, action request) <$> pluginCounter s)
        (<[(N, action request) :=
             length (Response (cr_response (Call s w C N request elapsed)))]>
           <$> pluginGauge s)
        (Observe (N, action request) elapsed <$> pluginTime s)
  | None => s
  end.
Proof.
  unfold Lookup, Call.
  destruct (registry s !! C) as [subreg|]; [|done].
  destruct (subreg !! N) as [p|]; [|done].
  by destruct (Plugin.Call p w request).
Qed.

Lemma Call_registry s w (C N : string) (request : gmap string string) (elapsed : Z) :
  registry (cr_server (Call s w C N request elapsed)) = registry s.
Proof. rewrite Call_server. by destruct (Lookup s C N). Qed.

Lemma counted_under_registry s s' l reqs :
  registry s' = registry s → counted_under s' l reqs = counted_under s l reqs.
Proof. intros Hreg. unfold counted_under, Lookup. by rewrite Hreg. Qed.

Lemma set_metrics_twice s c g t c' g' t' :
  set_metrics (set_metrics s c g t) c' g' t' = set_metrics s c' g' t'.
Proof. reflexivity. Qed.

Lemma set_metrics_id s :
  set_metrics s (pluginCounter s) (pluginGauge s) (pluginTime s) = s.
Proof. by destruct s. Qed.

(** X6. With the call counter and the duration histogram in place, serving
    any sequence of calls adds to the counter of a label pair the number of
    calls of the sequence that reached a plugin with that item and action
    (whatever the registry name, and with the empty action for a request
    without one), and appends to the histogram of the pair the durations of
    exactly these calls, in order. Calls that end in "Unknown registry" or
    "Unknown registry item" are not counted. *)
Theorem Calls_counted reqs : ∀ s w l (c : gmap Labels nat) (h : gmap Labels (list Z)),
  pluginCounter s = Some c →
  pluginTime s = Some h →
  ∃ c' h',
    pluginCounter (fst (Calls s w reqs)) = Some c' ∧
    pluginTime (fst (Calls s w reqs)) = Some h' ∧
    default 0 (c' !! l) = default 0 (c !! l) + length (counted_under s l reqs) ∧
    default [] (h' !! l) =
      default [] (h !! l) ++ (rq_elapsed <$> counted_under s l reqs).
Proof.
  induction reqs as [|rq reqs IH]; intros s w l c h Hc Hh.
  - exists c, h. simpl. rewrite app_nil_r. repeat split; [done..|lia].
  - simpl. unfold counted_under. rewrite filter_cons.
    fold (counted_under s l reqs).
    set (r := Call s w (rq_registry rq) (rq_item rq) (rq_request rq)
                (rq_elapsed rq)).
    assert (registry (cr_server r) = registry s) as Hreg by apply Call_registry.
    pose proof (Call_server s w (rq_registry rq) (rq_item rq) (rq_request rq)
                  (rq_elapsed rq)) as Hs. fold r in Hs.
    destruct (Lookup s (rq_registry rq) (rq_item rq)) as [p|] eqn:Hp.
    + destruct (IH (cr_server r) (cr_world r) l
                  (Inc (rq_item rq, action (rq_request rq)) c)
                  (Observe (rq_item rq, action (rq_request rq)) (rq_elapsed rq) h))
        as (c' & h' & Hc' & Hh' & Hcount & Htime).
      { rewrite Hs. simpl. by rewrite Hc. }
      { rewrite Hs. simpl. by rewrite Hh. }
      rewrite (counted_under_registry s (cr_server r)) in Hcount, Htime by done.
      exists c', h'. split; [done|]. split; [done|].
      rewrite Hcount, Htime. unfold Inc, Observe.
      destruct (decide ((rq_item rq, action (rq_request rq)) = l)) as [<-|Hne].
      * rewrite decide_True by (split; [eauto|done]).
        rewrite !lookup_insert_eq. simpl. split; [lia|].
        by rewrite <- app_assoc.
      * rewrite decide_False by (intros [_ ?]; done).
        by rewrite !lookup_insert_ne.
    + rewrite decide_False by (intros [[? ?] _]; done).
      rewrite Hs. by apply IH.
Qed.

(** X7. Serving calls changes nothing of the server but the three metrics
    vectors: registry, handles and the started flag stay. Without metrics
    (no [Start] yet, or a metrics port of zero) the server is left exactly
    as it was, whatever the calls. *)
Theorem Calls_frame reqs : ∀ s w,
  set_metrics (fst (Calls s w reqs))
    (pluginCounter s) (pluginGauge s) (pluginTime s) = s ∧
  (metrics_off s → fst (Calls s w reqs) = s).
Proof.
  induction reqs as [|rq reqs IH]; intros s w.
  - simpl. split; [apply set_metrics_id|done].
  - simpl.
    set (r := Call s w (rq_registry rq) (rq_item rq) (rq_request rq)
                (rq_elapsed rq)).
    pose proof (Call_server s w (rq_registry rq) (rq_item rq) (rq_request rq)
                  (rq_elapsed rq)) as Hs. fold r in Hs.
    destruct (IH (cr_server r) (cr_world r)) as [Hframe Hoff].
    split.
    + rewrite <- (set_metrics_twice (fst (Calls (cr_server r) (cr_world r) reqs))
                    (pluginCounter (cr_server r)) (pluginGauge (cr_server r))
                    (pluginTime (cr_server r))).
      rewrite Hframe, Hs.
      destruct (Lookup s _ _); [|apply set_metrics_id].
      rewrite set_metrics_twice. apply set_metrics_id.
    + intros (Hc & Hg & Ht).
      assert (cr_server r = s) as Hsame.
      { rewrite Hs. destruct (Lookup s _ _); [|done].
        rewrite Hc, Hg, Ht. simpl. rewrite <- Hc at 1. rewrite <- Hg at 1.
        rewrite <- Ht at 1. apply set_metrics_id. }
      rewrite Hsame in Hoff |- *. apply Hoff. by repeat split.
Qed.

End DispatchProperties.

(** ** More on the lifecycle *)

Section StartProperties.
Context {World : Type}.
Implicit Types (s : ExtensionManagerServer World) (h : Host).

(** The collector names a successful [Start] with metrics takes. *)
Lemma Start_locked_registers s h (registered registered' : gset string)
    (srv : TServer) s' :
  Start_locked s h registered = Returned (inl srv) (s', registered') →
  prometheusPort s' = prometheusPort s ∧
  ((0 < prometheusPort s)%Z →
     registered' =
       {["plugin_duration_seconds"]} ∪ ({["plugin_results"]}
         ∪ ({["plugin_calls"]} ∪ registered))).
Proof.
  unfold Start_locked, promauto_register.
  destruct (host_RegisterExtension h _ _ _) as [stat|e]; [|done].
  case_decide; [done|].
  destruct (host_OpenServer h _ _) as [tr|e]; [|done].
  case_bool_decide as Hport.
  - repeat (case_decide; [done|]). intros [= <- <- <-]. by split.
  - intros [= <- <- <-]. split; [done|]. intros ?. lia.
Qed.

(** X8. [Start] cannot be run twice with metrics. After a [Start] that
    succeeded with a metrics port above zero, the three collector names are
    taken in the default registry of the process; a further [Start] on
    that server, once the host has accepted the registration and the socket
    has opened, panics on the duplicate registration of "plugin_calls". By
    then it has replaced the transport, the server handle and the metrics
    endpoint; [started] and the metrics vectors are as the first [Start]
    left them, and the registry of collectors is unchanged. *)
Theorem Start_twice_panics s h (registered registered' : gset string)
    (srv : TServer) s' h2 (stat : ExtensionStatus) (tr : TServerTransport) :
  Start_locked s h registered = Returned (inl srv) (s', registered') →
  (0 < prometheusPort s)%Z →
  host_RegisterExtension h2 (name s') (version s') (genRegistry s') = inl stat →
  Code stat = 0%Z →
  host_OpenServer h2 (sockPath s' +:+ "." +:+ pretty (UUID stat)) (timeout s') =
    inl tr →
  "plugin_calls" ∈ registered' ∧
  "plugin_results" ∈ registered' ∧
  "plugin_duration_seconds" ∈ registered' ∧
  Start_locked s' h2 registered' =
    Panicked (PanicAlreadyRegistered "plugin_calls")
      (set_promServer
         (set_server (set_transport s' (Some tr))
            (Some {| serverTransport := tr |}))
         (Some {| Addr := ":" +:+ pretty (prometheusPort s) |}),
       registered').
Proof.
  intros Hfirst Hport Hreg Hcode Hopen.
  destruct (Start_locked_registers s h registered registered' srv s' Hfirst)
    as [Hsame Htaken].
  specialize (Htaken Hport).
  assert ("plugin_calls" ∈ registered') as Hcalls
    by (rewrite Htaken, !elem_of_union, !elem_of_singleton; auto).
  split; [done|].
  split; [rewrite Htaken, !elem_of_union, !elem_of_singleton; auto|].
  split; [rewrite Htaken, !elem_of_union, !elem_of_singleton; auto|].
  unfold Start_locked, promauto_register.
  rewrite Hreg. rewrite decide_False by (intros Hne; by apply Hne).
  rewrite Hopen, Hsame. rewrite bool_decide_true by done.
  by rewrite decide_True.
Qed.


(** X9. When [Start] fails before serving (the registration call fails,
    the host answers with a nonzero code, or the socket does not open) it
    returns the error at once, starts no goroutine, and never reaches
    [Serve]; the server handle, [started], the registry and the metrics
    are as before, so the server does not count as started, and no
    collector has been registered. *)
Theorem Start_failure s h (registered registered' : gset string)
    (serve : option error) (err : error) s' :
  Start_locked s h registered = Returned (inr err) (s', registered') →
  Start s h registered serve = Returned (Some err, []) (s', registered') ∧
  server s' = server s ∧
  started s' = started s ∧
  registry s' = registry s ∧
  promServer s' = promServer s ∧
  pluginCounter s' = pluginCounter s ∧
  pluginGauge s' = pluginGauge s ∧
  pluginTime s' = pluginTime s ∧
  registered' = registered.
Proof.
  intros Hfail. unfold Start. rewrite Hfail. split; [done|].
  revert Hfail. unfold Start_locked, promauto_register.
  destruct (host_RegisterExtension h _ _ _) as [stat|e]; simpl.
  - case_decide; simpl.
    + intros [= <- <- <-]. by repeat split.
    + destruct (host_OpenServer h _ _) as [tr|e]; simpl.
      * case_bool_decide; [|done]. by repeat (case_decide; [done|]).
      * intros [= <- <- <-]. by repeat split.
  - intros [= <- <- <-]. by repeat split.
Qed.

(** The errors of a failed [Start], as they print. *)
Lemma Start_locked_errors s h (registered : gset string) :
  match host_RegisterExtension h (name s) (version s) (genRegistry s) with
  | inr e =>
      ∃ err, Start_locked s h registered = Returned (inr err) (s, registered) ∧
             Error err = "registering extension: " +:+ Error e
  | inl stat =>
      Code stat ≠ 0%Z →
      ∃ err, Start_locked s h registered = Returned (inr err) (s, registered) ∧
             Error err = "status " +:+ pretty (Code stat)
                           +:+ " registering extension: " +:+ Message stat
  end.
Proof.
  unfold Start_locked.
  destruct (host_RegisterExtension h _ _ _) as [stat|e]; simpl.
  - intros Hne. rewrite decide_True by done. by eexists.
  - by eexists.
Qed.


(** X11. After a [Start] that failed before serving, on a server that was
    never started, [Run] receives the error of [Start], stops nothing, shuts
    no metrics endpoint down and returns that error. *)
Theorem Run_after_failed_Start s h (registered registered' : gset string)
    (serve : option error) (err : error) s' (later : list Completion) :
  Start_locked s h registered = Returned (inr err) (s', registered') →
  server s = None →
  promServer s = None →
  Start s h registered serve = Returned (Some err, []) (s', registered') ∧
  Run s' (ServeLoopExit (Some err) :: later) =
  Some {| run_return := Some err;
          run_server := s';
          run_effects := [] |}.
Proof.
  intros Hfail Hsrv Hprom.
  split; [unfold Start; by rewrite Hfail|].
  revert Hfail. unfold Start_locked, promauto_register.
  destruct (host_RegisterExtension h _ _ _) as [stat|e]; simpl.
  - case_decide; simpl.
    + intros [= <- <- <-]. unfold Run_received, Shutdown. by rewrite Hsrv, Hprom.
    + destruct (host_OpenServer h _ _) as [tr|e]; simpl.
      * case_bool_decide; [|done]. by repeat (case_decide; [done|]).
      * intros [= <- <- <-]. unfold Run_received, Shutdown. simpl.
        by rewrite Hsrv, Hprom.
  - intros [= <- <- <-]. unfold Run_received, Shutdown. by rewrite Hsrv, Hprom.
Qed.

(** X12. [Shutdown] touches nothing but the server handle: the plugins stay
    registered, the metrics stay, and [started] stays as it was, so a server
    that was started still reads as started after it has been shut down. *)
Theorem Shutdown_frame s :
  set_server (sd_server (Shutdown s)) (server s) = s ∧
  ∀ (w : World) (C N : string) (request : gmap string string) (elapsed : Z),
    cr_response (Call (sd_server (Shutdown s)) w C N request elapsed) =
    cr_response (Call s w C N request elapsed).
Proof.
  unfold Shutdown. destruct (server s) as [srv|] eqn:Hs; simpl.
  - split; [rewrite <- Hs; by destruct s|].
    intros w C N request elapsed. unfold Call. simpl.
    destruct (registry s !! C) as [subreg|]; [|done].
    destruct (subreg !! N) as [p|]; [|done].
    by destruct (Plugin.Call p w request).
  - split; [rewrite <- Hs; by destruct s|done].
Qed.

End StartProperties.

(** ** More on the watchdog *)

Lemma watchdog_state (interval : Z) (replies : list PingReply) (receiving : bool) :
  snd (watchdog interval replies receiving) = Looping ↔
  Forall (λ reply, ¬ ping_failed reply) replies.
Proof.
  induction replies as [|reply replies IH]; simpl.
  - split; [constructor|done].
  - rewrite Forall_cons. destruct reply as [err|status]; simpl.
    + split; [by destruct receiving|]. intros [Hno _]. by destruct Hno.
    + case_decide as Hcode; simpl.
      * split; [by destruct receiving|]. intros [Hno _]. by destruct Hno.
      * destruct (watchdog interval replies receiving) as [steps st]. simpl in *.
        rewrite IH. tauto.
Qed.

(** X13. The watchdog is still looping exactly as long as no ping has
    failed, and then it has slept and pinged once per reply and has not
    come to a send. Exactly when some ping failed it has come to its one
    send: it has then left the loop if [Run] was still receiving, and
    stays blocked in the send otherwise. It never pings more often than
    the host replied. *)
Theorem watchdog_outcome (interval : Z) (replies : list PingReply)
    (receiving : bool) :
  (Forall (λ reply, ¬ ping_failed reply) replies →
     watchdog interval replies receiving =
       (concat ((λ _, [Sleep interval; ClientPing]) <$> replies), Looping)) ∧
  (Exists ping_failed replies →
     snd (watchdog interval replies receiving) =
       (if receiving then Broke else Blocked) ∧
     length (sends (fst (watchdog interval replies receiving))) = 1) ∧
  (snd (watchdog interval replies receiving) ≠ Looping →
     Exists ping_failed replies) ∧
  pings (fst (watchdog interval replies receiving)) ≤ length replies.
Proof.
  split; [|split; [|split]].
  - intros Hok.
    pose proof (watchdog_ok_prefix interval replies [] receiving Hok) as Hrun.
    rewrite !app_nil_r in Hrun. exact Hrun.
  - induction replies as [|reply replies IH]; intros Hex;
      [by apply Exists_nil in Hex|].
    simpl. destruct reply as [err|status]; simpl; [done|].
    case_decide as Hcode; simpl; [done|].
    apply Exists_cons in Hex as [Hbad|Hex]; [done|].
    destruct (watchdog interval replies receiving) as [steps st]. simpl in *.
    by apply IH.
  - induction replies as [|reply replies IH]; simpl; [done|].
    destruct reply as [err|status]; simpl; [by left|].
    case_decide as Hcode; simpl; [by left|].
    destruct (watchdog interval replies receiving) as [steps st]. simpl in *.
    intros Hleft. right. by apply IH.
  - induction replies as [|reply replies IH]; [unfold pings; simpl; lia|].
    cbn [watchdog].
    destruct reply as [err|status]; [unfold pings; simpl; lia|].
    case_decide; [unfold pings; simpl; lia|].
    destruct (watchdog interval replies receiving) as [steps st].
    unfold pings in *. cbn in *. lia.
Qed.

(** X14. When the watchdog's failure is first on the channel, [Run] returns
    an error that reads "extension ping failed: " and the cause when the
    ping call failed, and "ping returned status " and the code in decimal
    when the host answered with a nonzero code. *)
Theorem Run_watchdog_error {World : Type} (s : ExtensionManagerServer World)
    (interval : Z) (oks : list PingReply) (bad : PingReply)
    (rest : list PingReply) :
  Forall (λ reply, ¬ ping_failed reply) oks →
  ping_failed bad →
  ∃ err,
    run_return <$> Run s (watchdog_arrivals interval (oks ++ bad :: rest)) =
      Some (Some err) ∧
    Error err =
      match bad with
      | PingError cause => "extension ping failed: " +:+ Error cause
      | PingStatus status => "ping returned status " +:+ pretty (Code status)
      end.
Proof.
  intros Hoks Hbad. unfold watchdog_arrivals.
  rewrite watchdog_ok_prefix by done. simpl.
  rewrite sends_app, sends_quiet. simpl.
  destruct bad as [cause|status]; simpl in *.
  - exists (Wrap cause "extension ping failed").
    split; [|reflexivity]. simpl. by rewrite Run_received_unfold.
  - rewrite decide_True by done. simpl.
    exists (Errorf ("ping returned status " +:+ pretty (Code status))).
    split; [|reflexivity]. simpl. by rewrite Run_received_unfold.
Qed.

(** ** More on the mutable table *)

Section MutableTableProperties.
Context {float64 : Type} `{!GoRuntime float64}.
Implicit Types (st : slice) (row : list (iface float64)).

Lemma len_append st (xs : list (gmap string string)) :
  len (append st xs) = len st + length xs.
Proof. unfold append. by case_decide. Qed.

Lemma elems_append_le st (xs : list (gmap string string)) :
  len st ≤ cap st → elems (append st xs) = elems st ++ xs.
Proof.
  intros Hlen. unfold append, elems, cap in *.
  assert (length (take (len st) (array st)) = len st) as Htake
    by by apply length_take_le.
  case_decide; simpl; rewrite take_app_add' by done; by rewrite take_app_length.
Qed.

Lemma append_in_place st (xs : list (gmap string string)) :
  len st + length xs ≤ cap st →
  append st xs =
  {| array := take (len st) (array st) ++ xs
                ++ drop (len st + length xs) (array st);
     len := len st + length xs |}.
Proof. intros Hfits. unfold append. by rewrite decide_True. Qed.

Lemma cap_append_in_place st (xs : list (gmap string string)) :
  len st + length xs ≤ cap st → cap (append st xs) = cap st.
Proof.
  intros Hfits. rewrite append_in_place by done. unfold cap in *. simpl.
  rewrite !length_app, length_take, length_drop. lia.
Qed.

(** [MutableDelete] in range, on a slice that need only have
    [len <= cap] and a length that fits an [int64]. *)
Lemma MutableDelete_in_place st (rowID : Z) :
  len st ≤ cap st →
  (Z.of_nat (len st) <= max_int)%Z →
  (0 <= rowID < Z.of_nat (len st))%Z →
  MutableDelete st rowID =
  Returned None
    (append {| array := array st; len := Z.to_nat rowID |}
       (elems {| array := drop (S (Z.to_nat rowID)) (array st);
                 len := len st - S (Z.to_nat rowID) |})).
Proof.
  intros Hlen Hmax Hin. unfold MutableDelete, slice_to, slice_from.
  unfold cap in *.
  rewrite decide_True by lia.
  rewrite wrap64_int64 by (unfold is_int64, min_int, max_int in *; lia).
  rewrite decide_True by lia.
  by replace (Z.to_nat (rowID + 1)) with (S (Z.to_nat rowID)) by lia.
Qed.

Lemma length_tail_elems st (k : nat) :
  len st ≤ cap st →
  length (elems {| array := drop (S k) (array st); len := len st - S k |}) =
  len st - S k.
Proof.
  intros Hlen. unfold elems, cap in *. simpl.
  rewrite length_take, length_drop. lia.
Qed.

(** The store a delete in range leaves, by rows, length and capacity. *)
Lemma MutableDelete_shape st (rowID : Z) :
  slice_wf st →
  (0 <= rowID < Z.of_nat (len st))%Z →
  ∃ st',
    MutableDelete st rowID = Returned None st' ∧
    elems st' = delete (Z.to_nat rowID) (elems st) ∧
    len st' = len st - 1 ∧
    cap st' = cap st.
Proof.
  intros [Hlen Hcap] Hin.
  assert (Z.of_nat (len st) <= max_int)%Z as Hmax by lia.
  rewrite (MutableDelete_in_place st rowID Hlen Hmax Hin).
  set (k := Z.to_nat rowID). assert (k < len st) as Hk by lia.
  set (head := {| array := array st; len := k |}).
  set (tail := elems {| array := drop (S k) (array st); len := len st - S k |}).
  assert (length tail = len st - S k) as Htail by by apply length_tail_elems.
  assert (len head + length tail ≤ cap head) as Hfits.
  { unfold cap in *. simpl. lia. }
  eexists. split; [reflexivity|].
  split; [|split].
  - rewrite elems_append_le by (unfold cap in *; simpl; lia).
    subst head tail. unfold elems. simpl.
    rewrite delete_take_drop, take_take, Nat.min_l by lia.
    f_equal. rewrite take_drop_commute. f_equal. f_equal. lia.
  - rewrite len_append. simpl. lia.
  - by rewrite cap_append_in_place.
Qed.

(** X15. [MutableDelete] of a row id in range returns nil, shortens the
    store by one and keeps its capacity, so the slice stays well formed;
    the rows are the old ones without the row at that index. It does not
    clear the slot it vacates: the backing array still holds the old last
    row just past the new length. *)
Theorem MutableDelete_result st (rowID : Z) :
  slice_wf st →
  (0 <= rowID < Z.of_nat (len st))%Z →
  ∃ st',
    MutableDelete st rowID = Returned None st' ∧
    elems st' = delete (Z.to_nat rowID) (elems st) ∧
    len st' = len st - 1 ∧
    cap st' = cap st ∧
    slice_wf st' ∧
    array st' !! (len st - 1) = array st !! (len st - 1).
Proof.
  intros Hwf Hin.
  destruct (MutableDelete_shape st rowID Hwf Hin)
    as (st' & Hrun & Helems & Hlen' & Hcap').
  destruct Hwf as [Hlen Hcap].
  exists st'. split; [done|]. split; [done|]. split; [done|]. split; [done|].
  split; [split; [lia|by rewrite Hcap']|].
  assert (Z.of_nat (len st) <= max_int)%Z as Hmax by lia.
  rewrite (MutableDelete_in_place st rowID Hlen Hmax Hin) in Hrun.
  injection Hrun as <-.
  set (k := Z.to_nat rowID). assert (k < len st) as Hk by lia.
  pose proof (length_tail_elems st k Hlen) as Htail.
  rewrite append_in_place by (unfold cap in *; simpl; lia).
  cbn [array len]. unfold cap in *.
  assert (length (take k (array st)) = k) as Hhead
    by (apply length_take_le; lia).
  rewrite lookup_app_r by (rewrite Hhead; lia).
  rewrite lookup_app_r by (rewrite Hhead, Htail; lia).
  rewrite Hhead, Htail, lookup_drop. f_equal. lia.
Qed.

(** X16. [MutableUpdate] of a row id in range with a well-formed row
    returns nil and replaces exactly the row at that index by the row built
    from the values: [i] is the first value as a decimal integer, [b], [d]
    and [t] are the next three printed with [%v], [%f] and [%s]; values
    past the fourth are ignored. Length and capacity stay. *)
Theorem MutableUpdate_result st (rowID : Z) (f : float64) (b d t : iface float64)
    (more : list (iface float64)) :
  (0 <= rowID < Z.of_nat (len st))%Z →
  ∃ st',
    MutableUpdate st rowID (VFloat f :: b :: d :: t :: more) = Returned None st' ∧
    elems st' =
      <[Z.to_nat rowID :=
          <["i" := pretty (int_of_float64 f)]>
            (<["b" := Sprintf_v b]> (<["d" := Sprintf_f d]>
               (<["t" := Sprintf_s t]> ∅)))]> (elems st) ∧
    len st' = len st ∧
    cap st' = cap st ∧
    MutableUpdate st rowID (VFloat f :: b :: d :: t :: more) =
      MutableUpdate st rowID [VFloat f; b; d; t].
Proof.
  intros Hin.
  destruct (MutableUpdate_replaces st rowID f b d t more Hin) as (st' & Hrun & Helems).
  exists st'. split; [done|]. split; [done|].
  unfold MutableUpdate, slice_set in *. simpl in *.
  rewrite decide_True in Hrun |- * by done.
  injection Hrun as <-. simpl. unfold cap. simpl.
  by rewrite length_insert.
Qed.

(** X17. On a row that holds a [float64] and at least three more values
    [MutableInsert] answers with one row, holding as id the first value as
    a decimal integer and the status "success", and a nil error; the store
    is one longer and has the old rows followed by the row with that id as
    [i] and the next three values printed with [%v], [%f] and [%s] as [b],
    [d] and [t]. On every other row it panics and the store is as before:
    index out of range on an empty row or one shorter than four, a failed
    type assertion on a first value that is no [float64]. The [autoRowID]
    flag makes no difference. *)
Theorem MutableInsert_outcome st (autoRowID : bool) row :
  slice_wf st →
  (∀ f b d t more, row = VFloat f :: b :: d :: t :: more →
     ∃ st',
       MutableInsert st autoRowID row =
         Returned ([ <["id" := pretty (int_of_float64 f)]>
                       (<["status" := "success"]> ∅) ], None) st' ∧
       elems st' =
         elems st ++ [ <["i" := pretty (int_of_float64 f)]>
                         (<["b" := Sprintf_v b]> (<["d" := Sprintf_f d]>
                            (<["t" := Sprintf_s t]> ∅))) ] ∧
       len st' = S (len st)) ∧
  (row = [] → MutableInsert st autoRowID row = Panicked PanicIndexOutOfRange st) ∧
  (∀ v rest, row = v :: rest → (∀ f, v ≠ VFloat f) →
     MutableInsert st autoRowID row = Panicked PanicTypeAssertion st) ∧
  (∀ f rest, row = VFloat f :: rest → length rest < 3 →
     MutableInsert st autoRowID row = Panicked PanicIndexOutOfRange st) ∧
  MutableInsert st autoRowID row = MutableInsert st (negb autoRowID) row.
Proof.
  intros Hwf. split; [|split; [|split; [|split; [|reflexivity]]]].
  - intros f b d t more ->.
    destruct (MutableInsert_appends st autoRowID f b d t more Hwf)
      as (st' & Hrun & Helems).
    exists st'. split; [exact Hrun|]. split; [exact Helems|].
    unfold MutableInsert in Hrun. simpl in Hrun. injection Hrun as <-.
    rewrite len_append. simpl. lia.
  - by intros ->.
  - intros v rest -> Hv. unfold MutableInsert, row_id. simpl.
    destruct v as [f| | |]; [by destruct (Hv f)|done..].
  - intros f rest -> Hshort. unfold MutableInsert, row_id, row_literal.
    destruct rest as [|b [|d [|t more]]]; simpl in *; [done..|lia].
Qed.

(** X18. Inserting a well-formed row and then deleting the row id it got
    (the old length) gives back the rows there were. *)
Theorem MutableInsert_MutableDelete st (autoRowID : bool) row :
  slice_wf st →
  (Z.of_nat (len st) < max_int)%Z →
  well_formed_row row →
  ∃ st',
    MutableDelete (state_of (MutableInsert st autoRowID row)) (Z.of_nat (len st)) =
      Returned None st' ∧
    elems st' = elems st.
Proof.
  intros Hwf Hroom (f & b & d & t & more & ->).
  destruct (MutableInsert_appends st autoRowID f b d t more Hwf)
    as (st1 & Hrun & Helems).
  rewrite Hrun. simpl.
  assert (len st1 = S (len st)) as Hlen1.
  { unfold MutableInsert in Hrun. simpl in Hrun. injection Hrun as <-.
    rewrite len_append. simpl. lia. }
  assert (len st1 ≤ cap st1) as Hcap1.
  { assert (length (elems st1) = S (length (elems st))) as Hl
      by (rewrite Helems, length_app; simpl; lia).
    rewrite (length_elems st Hwf) in Hl. unfold elems in Hl.
    rewrite length_take in Hl. unfold cap. lia. }
  rewrite (MutableDelete_in_place st1 (Z.of_nat (len st))) by lia.
  eexists. split; [reflexivity|].
  rewrite Nat2Z.id.
  rewrite elems_append_le by (unfold cap in *; simpl; lia).
  unfold elems at 1 2. simpl.
  replace (len st1 - S (len st)) with 0 by lia. simpl. rewrite app_nil_r.
  assert (take (len st) (array st1) = take (len st) (elems st1)) as ->
    by (unfold elems; rewrite take_take, Nat.min_l by lia; done).
  rewrite Helems. rewrite take_app_length'; [done|].
  by rewrite length_elems.
Qed.

(** X19. A delete frees a slot that the next insert takes: after
    [MutableDelete] of a row id in range and [MutableInsert] of a
    well-formed row the store has its old capacity and length, no new array
    has been allocated, and the rows are the old ones without the deleted
    row, followed by the new one. *)
Theorem MutableDelete_MutableInsert st (rowID : Z) (autoRowID : bool)
    (f : float64) (b d t : iface float64) (more : list (iface float64)) :
  slice_wf st →
  (0 <= rowID < Z.of_nat (len st))%Z →
  let st1 := state_of (MutableDelete st rowID) in
  let st2 := state_of (MutableInsert st1 autoRowID
                         (VFloat f :: b :: d :: t :: more)) in
  cap st2 = cap st ∧
  len st2 = len st ∧
  elems st2 =
    delete (Z.to_nat rowID) (elems st)
      ++ [ <["i" := pretty (int_of_float64 f)]>
             (<["b" := Sprintf_v b]> (<["d" := Sprintf_f d]>
                (<["t" := Sprintf_s t]> ∅))) ].
Proof.
  intros Hwf Hin.
  destruct (MutableDelete_shape st rowID Hwf Hin)
    as (st' & Hrun & Helems & Hlen & Hcap).
  assert (slice_wf st') as Hwf'.
  { destruct Hwf as [Hle Hmax]. split; [lia|by rewrite Hcap]. }
  cbv zeta. rewrite Hrun. cbn [state_of].
  destruct (MutableInsert_appends st' autoRowID f b d t more Hwf')
    as (st'' & Hrun' & Helems').
  rewrite Hrun'. cbn [state_of].
  unfold MutableInsert in Hrun'. simpl in Hrun'. injection Hrun' as <-.
  destruct Hwf as [Hle _].
  split; [|split].
  - rewrite cap_append_in_place; [done|]. simpl. lia.
  - rewrite len_append. simpl. lia.
  - by rewrite Helems', Helems.
Qed.

End MutableTableProperties.

(** ** The events example *)

Lemma events_fill_spec (n : nat) : ∀ (events : list (gmap string string)) (index : Z),
  (min_int <= index)%Z →
  (index + Z.of_nat n <= max_int)%Z →
  events_fill n events index =
  (events ++ ((λ j, event_row (index + Z.of_nat j)) <$> seq 0 n),
   (index + Z.of_nat n)%Z).
Proof.
  induction n as [|n IH]; intros events index Hlo Hhi; simpl.
  - rewrite app_nil_r. do 2 f_equal. lia.
  - rewrite wrap64_int64 by (unfold is_int64; lia).
    rewrite IH by lia.
    rewrite <- app_assoc. simpl. f_equal.
    + f_equal. f_equal; [f_equal; lia|].
      rewrite <- fmap_S_seq, <- list_fmap_compose.
      apply list_fmap_ext. intros _ j _. simpl. f_equal. lia.
    + lia.
Qed.

Lemma stream_events_spec (rounds : nat) : ∀ (index : Z),
  (min_int <= index)%Z →
  (index + 100 * Z.of_nat rounds <= max_int)%Z →
  stream_events rounds index =
  (λ k, (λ j, event_row (index + 100 * Z.of_nat k + Z.of_nat j)) <$> seq 0 100)
    <$> seq 0 rounds.
Proof.
  induction rounds as [|rounds IH]; intros index Hlo Hhi; [done|].
  cbn [stream_events]. unfold events_batch.
  rewrite events_fill_spec by lia.
  rewrite IH by lia. rewrite app_nil_l.
  change (seq 0 (S rounds)) with (0 :: seq 1 rounds).
  rewrite fmap_cons. f_equal.
  - apply list_fmap_ext. intros _ j _. f_equal. lia.
  - rewrite <- fmap_S_seq, <- list_fmap_compose.
    apply list_fmap_ext. intros _ k _. unfold compose.
    apply list_fmap_ext. intros _ j _. f_equal. lia.
Qed.

(** X20. The streaming goroutine of the events example hands over batches
    of exactly 100 events, numbered on from zero without a gap or a repeat:
    event [j] of batch [k] carries the integer [100 k + j] in decimal, as
    long as the counter has not run over the [int64] range. *)
Theorem stream_events_numbering (rounds k j : nat) :
  (100 * Z.of_nat rounds <= max_int)%Z →
  k < rounds →
  j < 100 →
  ∃ batch,
    stream_events rounds 0 !! k = Some batch ∧
    length batch = 100 ∧
    batch !! j = Some (event_row (100 * Z.of_nat k + Z.of_nat j)) ∧
    event_row (100 * Z.of_nat k + Z.of_nat j) !! "integer" =
      Some (pretty (100 * Z.of_nat k + Z.of_nat j)%Z).
Proof.
  intros Hmax Hk Hj.
  rewrite stream_events_spec by (unfold min_int; lia).
  eexists. split.
  { rewrite list_lookup_fmap, lookup_seq_lt by done. reflexivity. }
  split; [by rewrite length_fmap, length_seq|].
  split; [|reflexivity].
  rewrite list_lookup_fmap, lookup_seq_lt by done. simpl. f_equal.
Qed.

(** ** Instances of the further properties *)

Lemma example_server_ready : registry_ready (registry example_server).
Proof. apply initial_registry_ready. Qed.

Lemma registry_holds_registered_plugins_witness :
  example_plugin "table" "example_table" "two"
    ∈ concat [ [example_plugin "table" "example_table" "one"];
               [example_plugin "table" "example_table" "two"] ] ∧
  Plugin.RegistryName (example_plugin "table" "example_table" "two") = "table" ∧
  Plugin.Name (example_plugin "table" "example_table" "two") = "example_table" ∧
  "table" ∈ ["table"; "logger"; "config"; "distributed"].
Proof.
  apply (registry_holds_registered_plugins "example_extension" "/tmp/osq.em"
           [ServerTimeout 3000000000; ServerPingInterval 3000000000;
            ServerPrometheusPort 3000]
           example_client example_server
           [ [example_plugin "table" "example_table" "one"];
             [example_plugin "table" "example_table" "two"] ]
           "table" "example_table"
           (example_plugin "table" "example_table" "two")); reflexivity.
Defined.

Lemma RegisterPlugin_returns_iff_valid_witness :
  panicked (RegisterPlugin example_server
              [example_plugin "table" "example_table" "one";
               example_plugin "tables" "mutable_table" "two"]) = false ↔
  Forall valid_plugin [example_plugin "table" "example_table" "one";
                       example_plugin "tables" "mutable_table" "two"].
Proof.
  apply (RegisterPlugin_returns_iff_valid example_server
           [example_plugin "table" "example_table" "one";
            example_plugin "tables" "mutable_table" "two"]).
  intros C HC. rewrite validRegistryName_spec in HC.
  rewrite !elem_of_cons, elem_of_nil in HC.
  destruct HC as [->|[->|[->|[->|[]]]]]; eexists; reflexivity.
Defined.

Lemma genRegistry_routes_witness :
  let s := state_of (RegisterPlugin_calls example_server
                       [ [example_plugin "table" "example_table" "one"];
                         [example_plugin "config" "example_config" "two"] ]) in
  dom (genRegistry s) = dom validRegistryNames ∧
  ∀ C N, (genRegistry s !! C) ≫= (λ routes, routes !! N) =
         Plugin.Routes <$> Lookup s C N.
Proof.
  exact (genRegistry_routes "example_extension" "/tmp/osq.em"
           [ServerTimeout 3000000000; ServerPingInterval 3000000000;
            ServerPrometheusPort 3000]
           example_client example_server
           [ [example_plugin "table" "example_table" "one"];
             [example_plugin "config" "example_config" "two"] ]
           eq_refl).
Defined.

Lemma Calls_counted_witness :
  ∃ c' h',
    pluginCounter (fst (Calls started_server 0 example_calls)) = Some c' ∧
    pluginTime (fst (Calls started_server 0 example_calls)) = Some h' ∧
    default 0 (c' !! ("example_table", "generate")) =
      default 0 ((∅ : gmap Labels nat) !! ("example_table", "generate"))
        + length (counted_under started_server ("example_table", "generate")
                    example_calls) ∧
    default [] (h' !! ("example_table", "generate")) =
      default [] ((∅ : gmap Labels (list Z)) !! ("example_table", "generate"))
        ++ (rq_elapsed <$> counted_under started_server
                             ("example_table", "generate") example_calls).
Proof.
  apply (Calls_counted example_calls started_server 0
           ("example_table", "generate") ∅ ∅); reflexivity.
Defined.

Lemma Start_twice_panics_witness :
  "plugin_calls" ∈ started_collectors ∧
  "plugin_results" ∈ started_collectors ∧
  "plugin_duration_seconds" ∈ started_collectors ∧
  Start_locked started_server example_host started_collectors =
    Panicked (PanicAlreadyRegistered "plugin_calls")
      (set_promServer
         (set_server
            (set_transport started_server
               (Some {| listenPath := "/tmp/osq.em.7";
                        transportTimeout := 3000000000 |}))
            (Some {| serverTransport :=
                       {| listenPath := "/tmp/osq.em.7";
                          transportTimeout := 3000000000 |} |}))
         (Some {| Addr := ":" +:+ pretty (prometheusPort registered_server) |}),
       started_collectors).
Proof.
  assert (Start_locked registered_server example_host ∅ =
          Returned
            (inl {| serverTransport :=
                      {| listenPath := "/tmp/osq.em.7";
                         transportTimeout := 3000000000 |} |})
            (started_server, started_collectors)) as Hfirst by reflexivity.
  assert (0 < prometheusPort registered_server)%Z as Hport by reflexivity.
  exact (Start_twice_panics registered_server example_host ∅ started_collectors
           {| serverTransport := {| listenPath := "/tmp/osq.em.7";
                                    transportTimeout := 3000000000 |} |}
           started_server example_host
           {| Code := 0; Message := "OK"; UUID := 7 |}
           {| listenPath := "/tmp/osq.em.7"; transportTimeout := 3000000000 |}
           Hfirst Hport eq_refl eq_refl eq_refl).
Defined.

Lemma Start_failure_witness :
  Start registered_server refusing_host ∅ None =
    Returned
      (Some (Errorf "status 1 registering extension: duplicate extension"), [])
      (registered_server, ∅) ∧
  server registered_server = server registered_server ∧
  started registered_server = started registered_server ∧
  registry registered_server = registry registered_server ∧
  promServer registered_server = promServer registered_server ∧
  pluginCounter registered_server = pluginCounter registered_server ∧
  pluginGauge registered_server = pluginGauge registered_server ∧
  pluginTime registered_server = pluginTime registered_server ∧
  (∅ : gset string) = ∅.
Proof.
  exact (Start_failure registered_server refusing_host ∅ ∅ None
           (Errorf "status 1 registering extension: duplicate extension")
           registered_server eq_refl).
Defined.


Lemma Run_after_failed_Start_witness :
  Start registered_server refusing_host ∅ None =
    Returned
      (Some (Errorf "status 1 registering extension: duplicate extension"), [])
      (registered_server, ∅) ∧
  Run registered_server
      [ServeLoopExit
         (Some (Errorf "status 1 registering extension: duplicate extension"))] =
  Some {| run_return :=
            Some (Errorf "status 1 registering extension: duplicate extension");
          run_server := registered_server;
          run_effects := [] |}.
Proof.
  exact (Run_after_failed_Start registered_server refusing_host ∅ ∅ None
           (Errorf "status 1 registering extension: duplicate extension")
           registered_server [] eq_refl eq_refl eq_refl).
Defined.

Lemma Run_watchdog_error_witness :
  ∃ err,
    run_return <$> Run started_server
                     (watchdog_arrivals 3000000000
                        ([PingStatus StatusOK]
                           ++ PingError (Errorf "broken pipe") :: [])) =
      Some (Some err) ∧
    Error err = "extension ping failed: " +:+ Error (Errorf "broken pipe").
Proof.
  apply (Run_watchdog_error started_server 3000000000 [PingStatus StatusOK]
           (PingError (Errorf "broken pipe")) []).
  - repeat constructor. simpl. intros Hne. by apply Hne.
  - exact I.
Defined.

Lemma MutableDelete_result_witness :
  ∃ st',
    MutableDelete initial_mutableData 0 = Returned None st' ∧
    elems st' = delete (Z.to_nat 0) (elems initial_mutableData) ∧
    len st' = len initial_mutableData - 1 ∧
    cap st' = cap initial_mutableData ∧
    slice_wf st' ∧
    array st' !! (len initial_mutableData - 1) =
      array initial_mutableData !! (len initial_mutableData - 1).
Proof.
  apply (MutableDelete_result initial_mutableData 0).
  - split; [reflexivity|]. unfold cap, max_int. simpl. lia.
  - simpl. lia.
Defined.

Lemma MutableUpdate_result_witness :
  ∃ st',
    MutableUpdate initial_mutableData 1
      [VFloat 5678%Z; VString "56789"; VFloat 5%Z; VString "extra"; VNil] =
      Returned None st' ∧
    elems st' =
      <[Z.to_nat 1 :=
          <["i" := pretty (int_of_float64 5678%Z)]>
            (<["b" := Sprintf_v (VString "56789")]>
               (<["d" := Sprintf_f (VFloat 5%Z)]>
                  (<["t" := Sprintf_s (VString "extra")]> ∅)))]>
        (elems initial_mutableData) ∧
    len st' = len initial_mutableData ∧
    cap st' = cap initial_mutableData ∧
    MutableUpdate initial_mutableData 1
      [VFloat 5678%Z; VString "56789"; VFloat 5%Z; VString "extra"; VNil] =
      MutableUpdate initial_mutableData 1
        [VFloat 5678%Z; VString "56789"; VFloat 5%Z; VString "extra"].
Proof.
  apply (MutableUpdate_result initial_mutableData 1 5678%Z
           (VString "56789") (VFloat 5%Z) (VString "extra") [VNil]).
  simpl. lia.
Defined.

Lemma MutableInsert_outcome_witness :
  (∃ st',
     MutableInsert initial_mutableData true
       [VFloat 5678%Z; VString "56789"; VFloat 5%Z; VString "extra"] =
       Returned ([ <["id" := "5678"]> (<["status" := "success"]> ∅) ], None) st' ∧
     elems st' =
       elems initial_mutableData
         ++ [ <["i" := "5678"]> (<["b" := "56789"]> (<["d" := "5.000000"]>
                (<["t" := "extra"]> ∅))) ] ∧
     len st' = S (len initial_mutableData)) ∧
  MutableInsert initial_mutableData true [VNil; VString "56789"] =
    Panicked PanicTypeAssertion initial_mutableData.
Proof.
  assert (slice_wf initial_mutableData) as Hwf.
  { split; [reflexivity|]. unfold cap, max_int. simpl. lia. }
  split.
  - destruct (MutableInsert_outcome initial_mutableData true
                [VFloat 5678%Z; VString "56789"; VFloat 5%Z; VString "extra"] Hwf)
      as [Hreturns _].
    exact (Hreturns 5678%Z (VString "56789") (VFloat 5%Z) (VString "extra") []
             eq_refl).
  - destruct (MutableInsert_outcome initial_mutableData true
                [VNil; VString "56789"] Hwf)
      as (_ & _ & Hassert & _).
    apply (Hassert VNil [VString "56789"] eq_refl). intros f. discriminate.
Defined.

Lemma MutableInsert_MutableDelete_witness :
  ∃ st',
    MutableDelete
      (state_of (MutableInsert initial_mutableData false
                   [VFloat 5678%Z; VString "56789"; VFloat 5%Z; VString "extra"]))
      (Z.of_nat (len initial_mutableData)) = Returned None st' ∧
    elems st' = elems initial_mutableData.
Proof.
  apply (MutableInsert_MutableDelete initial_mutableData false
           [VFloat 5678%Z; VString "56789"; VFloat 5%Z; VString "extra"]).
  - split; [reflexivity|]. unfold cap, max_int. simpl. lia.
  - unfold max_int. simpl. lia.
  - by exists 5678%Z, (VString "56789"), (VFloat 5%Z), (VString "extra"), [].
Defined.

Lemma MutableDelete_MutableInsert_witness :
  let st1 := state_of (MutableDelete initial_mutableData 0) in
  let st2 := state_of (MutableInsert st1 false
                         [VFloat 5678%Z; VString "56789"; VFloat 5%Z;
                          VString "extra"]) in
  cap st2 = cap initial_mutableData ∧
  len st2 = len initial_mutableData ∧
  elems st2 =
    delete (Z.to_nat 0) (elems initial_mutableData)
      ++ [ <["i" := pretty (int_of_float64 5678%Z)]>
             (<["b" := Sprintf_v (VString "56789")]>
                (<["d" := Sprintf_f (VFloat 5%Z)]>
                   (<["t" := Sprintf_s (VString "extra")]> ∅))) ].
Proof.
  assert (slice_wf initial_mutableData) as Hwf.
  { split; [reflexivity|]. unfold cap, max_int. simpl. lia. }
  assert (0 <= 0 < Z.of_nat (len initial_mutableData))%Z as Hin
    by (simpl; lia).
  exact (MutableDelete_MutableInsert initial_mutableData 0 false 5678%Z
           (VString "56789") (VFloat 5%Z) (VString "extra") [] Hwf Hin).
Defined.

Lemma stream_events_numbering_witness :
  ∃ batch,
    stream_events 3 0 !! 2 = Some batch ∧
    length batch = 100 ∧
    batch !! 42 = Some (event_row (100 * Z.of_nat 2 + Z.of_nat 42)) ∧
    event_row (100 * Z.of_nat 2 + Z.of_nat 42) !! "integer" =
      Some (pretty (100 * Z.of_nat 2 + Z.of_nat 42)%Z).
Proof.
  apply (stream_events_numbering 3 2 42).
  - unfold max_int. simpl. lia.
  - lia.
  - lia.
Defined.

(** The third batch starts at 200. *)
Example stream_events_third_batch :
  (λ batch : list (gmap string string),
     (λ ev : gmap string string, ev !! "integer") <$> batch !! 0)
    <$> stream_events 3 0 !! 2 =
  Some (Some (Some "200")).
Proof. vm_compute. reflexivity. Qed.

(** What the counters read after the three example calls. *)
Example example_calls_counted :
  pluginCounter (fst (Calls started_server 0 example_calls)) =
    Some (<[("example_table", "generate") := 2]> ∅) ∧
  pluginTime (fst (Calls started_server 0 example_calls)) =
    Some (<[("example_table", "generate") := [125%Z; 250%Z]]> ∅) ∧
  snd (Calls started_server 0 example_calls) = 2.
Proof. repeat split; reflexivity. Qed.
